(** * pixyz.losses.losses: the loss-expression algebra

    A shallow embedding of [src/pixyz/losses/losses.py]: the node classes
    ([ValueLoss], [Parameter], the binary and unary operator families,
    [SetLoss], [Expectation]), their constructors ([__init__]), the public
    [eval] entry point and the per-class [_get_eval], and the [_symbol]
    property.

    Python dictionaries are objects: [x_dict] is passed by reference and
    [x1.update(x2)] mutates it in place.  Evaluation is therefore a state
    transformer over a store of dictionary objects.  The tensor engine, the
    typesetting library and the distributions' [sample] are collaborators
    outside the file; they are taken as interfaces (type classes). *)

From Stdlib Require Import QArith Qreduction Qabs.
From stdpp Require Import gmap strings list sorting.

#[local] Set Warnings "-clear-no-such-hyp".

(** ** Exceptions and results *)

(** The class of a Python value, as [type(v)] names it in the operand error
    message. *)
Inductive pytype : Type :=
| TyLoss (cls : string)
| TyNumber
| TyNoneType
| TyOther (name : string).

Inductive exn : Type :=
| InputKeysError (keys : gset string)
    (* Loss.eval: ValueError("Input keys are not valid, got {}.") *)
| OperandError (t1 t2 : pytype)
    (* LossOperator.__init__: ValueError("{} cannot be operated with {}.") *)
| BareValueError
    (* Parameter.__init__, LossSelfOperator.__init__: raise ValueError *)
| NotInList (x : string)
    (* list.index: ValueError("x is not in list") *)
| KeyError (k : string)
    (* x_dict[k] on a missing key *)
| AttributeError (ty : pytype) (attr : string)
    (* attribute access on an object that is not a Loss *)
| EngineError
    (* raised by an operation on a value: inside the tensor engine or the
       typesetting library, or by Python when the value has no such
       operation (a number has no abs, mean, sum or view: AttributeError) *)
| SampleError.
    (* raised inside p.sample *)

Inductive result (A : Type) : Type :=
| Ok (a : A)
| Raise (e : exn).

Arguments Ok {A} a.
Arguments Raise {A} e.

Definition rbind {A B : Type} (r : result A) (k : A → result B) : result B :=
  match r with
  | Ok a => k a
  | Raise e => Raise e
  end.

Definition rmap {A B : Type} (f : A → B) (r : result A) : result B :=
  rbind r (λ a, Ok (f a)).

Definition of_option {A : Type} (e : exn) (o : option A) : result A :=
  match o with
  | Some a => Ok a
  | None => Raise e
  end.

#[global] Instance result_bind : MBind result := λ A B k r, rbind r k.
#[global] Instance result_ret : MRet result := @Ok.
#[global] Instance result_fmap : FMap result := @rmap.

(** ** Lists, sets and [sorted] *)

(** [l.index(x)]: the position of the first [x] in [l]; raises when there is
    none. *)
Fixpoint py_index (l : list string) (x : string) : result nat :=
  match l with
  | [] => Raise (NotInList x)
  | y :: r => if decide (y = x) then Ok 0 else S <$> py_index r x
  end.

(** The key [l.index] as a total function, for stating facts about it. *)
Definition idx (l : list string) (x : string) : nat :=
  match py_index l x with
  | Ok i => i
  | Raise _ => length l
  end.

(** [sorted(xs, key=key)] computes the key of every element first, then sorts
    the decorated elements by key; the sort is stable. *)
Fixpoint decorate {A : Type} (key : A → result nat) (xs : list A)
  : result (list (nat * A)) :=
  match xs with
  | [] => Ok []
  | x :: r =>
      k ← key x;
      ds ← decorate key r;
      Ok ((k, x) :: ds)
  end.

Fixpoint insert_stable {A : Type} (kx : nat * A) (s : list (nat * A))
  : list (nat * A) :=
  match s with
  | [] => [kx]
  | ky :: r =>
      if decide (kx.1 ≤ ky.1) then kx :: ky :: r else ky :: insert_stable kx r
  end.

Definition sort_stable {A : Type} (ds : list (nat * A)) : list (nat * A) :=
  foldr insert_stable [] ds.

Definition sorted_key {A : Type} (key : A → result nat) (xs : list A)
  : result (list A) :=
  ds ← decorate key xs;
  Ok ((sort_stable ds).*2).

(** Python's [set]: the iteration order of a set is not specified by the
    language (for strings it changes from one interpreter run to the next).
    What [list(s)] and a loop over [s] can rely on is only that every element
    comes exactly once.  An order is taken here as a function of the set's
    elements; the two laws are all that is assumed of it.  (In CPython the
    order depends also on how the set was built.  The statements below hold
    for every order, or say which iteration of which set they are about.) *)
Class SetIter : Type := {
  set_iter : gset string → list string;
  set_iter_NoDup : ∀ X, NoDup (set_iter X);
  elem_of_set_iter : ∀ X x, x ∈ set_iter X ↔ x ∈ X
}.

(** [l] is an iteration of the set [X]: every element, once. *)
Definition iteration_of (X : gset string) (l : list string) : Prop :=
  NoDup l ∧ ∀ x, x ∈ l ↔ x ∈ X.

(** The enumeration that iterates [X] as [l], and any other set as
    [elements] lists it. *)
Definition iterating_as (X : gset string) (l : list string) (X' : gset string)
  : list string :=
  if decide (X' = X) then l else elements X'.

(** [sorted(set(l), key=l.index)] *)
Definition sorted_set_by_index `{SetIter} (l : list string) : result (list string) :=
  sorted_key (py_index l) (set_iter (list_to_set l)).

(** The list in the specification's words: the names of [l] with duplicates
    removed, each name at the place of its first occurrence. *)
Fixpoint first_occurrences_from (seen : gset string) (l : list string)
  : list string :=
  match l with
  | [] => []
  | x :: r =>
      if decide (x ∈ seen) then first_occurrences_from seen r
      else x :: first_occurrences_from ({[x]} ∪ seen) r
  end.

Definition first_occurrences (l : list string) : list string :=
  first_occurrences_from ∅ l.

(** ** Distributions and loss nodes

    [Parameter] is a reserved word here: the class is [Parameter'], the
    methods of [Loss] are [Loss_add], [Loss_neg], ... *)

(** What a loss reads of a distribution object [p]: [p.input_var], [p.var]
    and [p.prob_text].  [p.sample] is part of the [Sampler] interface below. *)
Record dist : Type := {
  d_input_var : list string;
  d_var : list string;
  d_prob_text : string
}.

(** The four subclasses of [LossOperator] and of [LossSelfOperator]. *)
Inductive binary_class : Type := AddLoss | SubLoss | MulLoss | DivLoss.
Inductive unary_class : Type := NegLoss | AbsLoss | BatchMean | BatchSum.

Section Nodes.
Context {T : Type}.

(** A node object with its attributes ([_input_var], [_loss1], [_loss2],
    [_loss], [_p], [_f], [sample_shape]).  An operand slot holds whatever
    Python value the constructor left in it, so [loss] and [pyval] are
    mutual. *)
Inductive loss : Type :=
| ValueLoss (loss1 : T)
| Parameter' (name : string)
| LossOperator (cls : binary_class) (input_var : list string) (loss1 loss2 : pyval)
| LossSelfOperator (cls : unary_class) (input_var : list string) (loss1 : pyval)
| SetLoss (input_var : list string) (inner : loss)
| Expectation (p : dist) (f : loss) (input_var : list string) (sample_shape : list nat)
with pyval : Type :=
| VLoss (l : loss)       (* isinstance(v, Loss) *)
| VNum (n : T)           (* isinstance(v, numbers.Number) *)
| VNone                  (* isinstance(v, type(None)) *)
| VStr (s : string)      (* a str *)
| VOther (cls : string). (* an object of any other class *)

Scheme loss_pyval_ind := Induction for loss Sort Prop
  with pyval_loss_ind := Induction for pyval Sort Prop.
Combined Scheme loss_pyval_mutind from loss_pyval_ind, pyval_loss_ind.

Definition binary_name (c : binary_class) : string :=
  match c with
  | AddLoss => "AddLoss" | SubLoss => "SubLoss"
  | MulLoss => "MulLoss" | DivLoss => "DivLoss"
  end.

Definition unary_name (c : unary_class) : string :=
  match c with
  | NegLoss => "NegLoss" | AbsLoss => "AbsLoss"
  | BatchMean => "BatchMean" | BatchSum => "BatchSum"
  end.

Definition class_name (l : loss) : string :=
  match l with
  | ValueLoss _ => "ValueLoss"
  | Parameter' _ => "Parameter"
  | LossOperator c _ _ _ => binary_name c
  | LossSelfOperator c _ _ => unary_name c
  | SetLoss _ _ => "SetLoss"
  | Expectation _ _ _ _ => "Expectation"
  end.

(** [type(v)] *)
Definition type_of (v : pyval) : pytype :=
  match v with
  | VLoss l => TyLoss (class_name l)
  | VNum _ => TyNumber
  | VNone => TyNoneType
  | VStr _ => TyOther "str"
  | VOther c => TyOther c
  end.

(** Modelled from the spec: [tolist] of [pixyz.utils] is not among the
    sources; [Parameter] "requires name to be a single string", and its
    evaluation reads [_input_var[0]], so [tolist] of a string is the
    one-element list of it. *)
Definition tolist (name : string) : list string := [name].

(** The [input_var] property: the node's [_input_var] attribute.
    [ValueLoss.__init__] sets it to [[]]; [Parameter.__init__] to
    [tolist(input_var)]. *)
Definition input_var (l : loss) : list string :=
  match l with
  | ValueLoss _ => []
  | Parameter' name => tolist name
  | LossOperator _ iv _ _ => iv
  | LossSelfOperator _ iv _ => iv
  | SetLoss iv _ => iv
  | Expectation _ _ iv _ => iv
  end.

(** *** Constructors *)

(** [Loss.__init__(self, p, q=None, input_var=None)]: the value it leaves in
    [_input_var]. *)
Definition Loss_init `{SetIter} (p : dist) (q : option dist)
    (iv : option (list string)) : result (list string) :=
  match iv with
  | Some iv => Ok iv
  | None =>
      match q with
      | None => Ok (d_input_var p)
      | Some q => sorted_set_by_index (d_input_var p ++ d_input_var q)
      end
  end.

Definition ValueLoss_init (loss1 : T) : loss := ValueLoss loss1.

Definition Parameter_init (v : pyval) : result loss :=
  match v with
  | VStr s => Ok (Parameter' s)
  | _ => Raise BareValueError
  end.

(** [LossOperator.__init__(self, loss1, loss2)].  The first [if] chain
    treats [loss1]; its third test is [isinstance(loss2, type(None))], on
    the second operand, as the source has it. *)
Definition LossOperator_init `{SetIter} (cls : binary_class)
    (loss1 loss2 : pyval) : result loss :=
  '(iv1, slot1) ←
    match loss1 with
    | VLoss l => Ok (input_var l, loss1)
    | VNum n => Ok ([], VLoss (ValueLoss n))
    | _ =>
        match loss2 with
        | VNone => Ok ([], loss1)
        | _ => Raise (OperandError (type_of loss1) (type_of loss2))
        end
    end;
  '(iv2, slot2) ←
    match loss2 with
    | VLoss l => Ok (iv1 ++ input_var l, loss2)
    | VNum n => Ok (iv1, VLoss (ValueLoss n))
    | VNone => Ok (iv1, loss2)
    | _ => Raise (OperandError (type_of loss2) (type_of slot1))
    end;
  iv ← sorted_set_by_index iv2;
  Ok (LossOperator cls iv slot1 slot2).

(** [LossSelfOperator.__init__(self, loss1)] *)
Definition LossSelfOperator_init (cls : unary_class) (loss1 : pyval)
  : result loss :=
  match loss1 with
  | VNone => Raise BareValueError
  | VLoss l => Ok (LossSelfOperator cls (input_var l) loss1)
  | VNum n => Ok (LossSelfOperator cls [] (VLoss (ValueLoss n)))
  | _ => Raise BareValueError
  end.

(** [SetLoss.__init__(self, loss)].  ([SetLoss.__getattr__] takes no part in
    construction, evaluation or the symbol.) *)
Definition SetLoss_init (l : loss) : loss := SetLoss (input_var l) l.

(** [Expectation.__init__(self, p, f, input_var=None, sample_shape=())].
    In [set(p.input_var) | set(f.input_var) - set(p.var)] Python's [-] binds
    tighter than [|]. *)
Definition Expectation_init `{SetIter} (p : dist) (f : loss)
    (iv : option (list string)) (sample_shape : list nat) : result loss :=
  let iv :=
    match iv with
    | None =>
        set_iter (list_to_set (d_input_var p)
                  ∪ (list_to_set (input_var f) ∖ list_to_set (d_var p)))
    | Some iv => iv
    end in
  iv' ← Loss_init p None (Some iv);
  Ok (Expectation p f iv' sample_shape).

(** The operator overloads and methods of [Loss]: [__add__], [__sub__],
    [__mul__], [__truediv__], their reflected forms, [__neg__], [abs],
    [mean], [sum], [expectation].  A reflected form builds the node its
    direct form builds, with [self] first. *)
Definition Loss_add `{SetIter} (a : loss) (other : pyval) := LossOperator_init AddLoss (VLoss a) other.
Definition Loss_sub `{SetIter} (a : loss) (other : pyval) := LossOperator_init SubLoss (VLoss a) other.
Definition Loss_mul `{SetIter} (a : loss) (other : pyval) := LossOperator_init MulLoss (VLoss a) other.
Definition Loss_truediv `{SetIter} (a : loss) (other : pyval) := LossOperator_init DivLoss (VLoss a) other.
Definition Loss_radd `{SetIter} (a : loss) (other : pyval) := LossOperator_init AddLoss (VLoss a) other.
Definition Loss_rsub `{SetIter} (a : loss) (other : pyval) := LossOperator_init SubLoss (VLoss a) other.
Definition Loss_rmul `{SetIter} (a : loss) (other : pyval) := LossOperator_init MulLoss (VLoss a) other.
Definition Loss_rtruediv `{SetIter} (a : loss) (other : pyval) := LossOperator_init DivLoss (VLoss a) other.
Definition Loss_neg (a : loss) := LossSelfOperator_init NegLoss (VLoss a).
Definition Loss_abs (a : loss) := LossSelfOperator_init AbsLoss (VLoss a).
Definition Loss_mean (a : loss) := LossSelfOperator_init BatchMean (VLoss a).
Definition Loss_sum (a : loss) := LossSelfOperator_init BatchSum (VLoss a).
Definition Loss_expectation `{SetIter} (a : loss) (p : dist) (iv : option (list string))
    (sample_shape : list nat) := Expectation_init p a iv sample_shape.

End Nodes.

Arguments loss T : clear implicits.
Arguments pyval T : clear implicits.

(** ** The store of dictionary objects and the collaborators *)

(** A dictionary object is a location of the store; [heap σ !!! x] is the
    dictionary's present contents.  [world] is whatever state the
    distributions' sampler keeps (its random number generator). *)
Record state (T W : Type) : Type := {
  heap : gmap positive (gmap string T);
  world : W
}.

Arguments heap {T W} s.
Arguments world {T W} s.

(** What the code uses of the tensor engine (and of Python numbers):
    [+ - * /], unary [-], [.abs()], [.mean()], [.sum()], and
    [.view(n, -1).mean(dim=0)].  [None] stands for an exception raised by
    the operation.  [t_zero] is the integer [0] an absent operand counts
    as. *)
Class Tensor (T : Type) : Type := {
  t_zero : T;
  t_add : T → T → option T;
  t_sub : T → T → option T;
  t_mul : T → T → option T;
  t_truediv : T → T → option T;
  t_neg : T → option T;
  t_abs : T → option T;
  t_mean : T → option T;
  t_sum : T → option T;
  t_view_mean : nat → T → option T
}.

(** [p.sample(x_dict, sample_shape=..., reparam=True, return_all=True)]:
    given the dictionary object, returns a dictionary object.  It may
    allocate, write to the store and advance the sampler's own state. *)
Class Sampler (T W : Type) : Type := {
  sample : dist → positive → list nat → state T W → option (positive * state T W)
}.

(** The assumption on [sample] that the arithmetic laws need: a call removes
    no key from any dictionary. *)
Class SamplerKeepsKeys (T W : Type) `{Sampler T W} : Prop :=
  sample_keeps_keys :
    ∀ p x sh σ r σ', sample p x sh σ = Some (r, σ') →
      ∀ y, dom (heap σ !!! y) ⊆ dom (heap σ' !!! y).

(** [return_all=True]: the dictionary returned has the keys of the one given
    and the names of [p.var]. *)
Class SamplerReturnsAll (T W : Type) `{Sampler T W} : Prop :=
  sample_returns_all :
    ∀ p x sh σ r σ', sample p x sh σ = Some (r, σ') →
      dom (heap σ !!! x) ∪ list_to_set (d_var p) ⊆ dom (heap σ' !!! r).

(** ** Evaluation *)

Definition M (T W A : Type) : Type := state T W → result (A * state T W).

Section Evaluation.
Context {T W : Type} `{Tensor T} `{Sampler T W}.

#[global] Instance M_ret : MRet (M T W) := λ A a σ, Ok (a, σ).

#[global] Instance M_bind : MBind (M T W) := λ A B k m σ,
  match m σ with
  | Ok (a, σ') => k a σ'
  | Raise e => Raise e
  end.

Definition raise {A : Type} (e : exn) : M T W A := λ _, Raise e.

Definition lift {A : Type} (e : exn) (o : option A) : M T W A :=
  λ σ, match o with Some a => Ok (a, σ) | None => Raise e end.

(** the contents of a dictionary object *)
Definition read (x : positive) : M T W (gmap string T) :=
  λ σ, Ok (heap σ !!! x, σ).

(** [{}] : a new, empty dictionary object *)
Definition new_dict : M T W positive :=
  λ σ, let l := fresh (dom (heap σ)) in
       Ok (l, {| heap := <[l := ∅]> (heap σ); world := world σ |}).

(** [x1.update(x2)]: the entries of [x2] are written into [x1]; on a key
    of both, [x2]'s value stays. *)
Definition updated (σ : state T W) (x1 x2 : positive) : state T W :=
  {| heap := <[x1 := (heap σ !!! x2) ∪ (heap σ !!! x1)]> (heap σ);
     world := world σ |}.

Definition dict_update (x1 x2 : positive) : M T W () :=
  λ σ, Ok ((), updated σ x1 x2).

Definition call_sample (p : dist) (x : positive) (sh : list nat) : M T W positive :=
  λ σ, of_option SampleError (sample p x sh σ).

(** The test that opens [Loss.eval]:
    [set(list(x_dict.keys())) >= set(self._input_var)]. *)
Definition check_input (iv : list string) (x : positive) : M T W () :=
  d ← read x;
  if bool_decide (list_to_set iv ⊆ dom d) then mret ()
  else raise (InputKeysError (dom d)).

Definition binary_apply (cls : binary_class) (v1 v2 : T) : option T :=
  match cls with
  | AddLoss => t_add v1 v2
  | SubLoss => t_sub v1 v2
  | MulLoss => t_mul v1 v2
  | DivLoss => t_truediv v1 v2
  end.

Definition unary_apply (cls : unary_class) (v : T) : option T :=
  match cls with
  | NegLoss => t_neg v
  | AbsLoss => t_abs v
  | BatchMean => t_mean v
  | BatchSum => t_sum v
  end.

(** [torch.Size(sample_shape).numel()] *)
Definition numel (shape : list nat) : nat := foldr Nat.mul 1 shape.

(** [_get_eval(self, x_dict)] of every class.  [call_get_eval v x] is the
    method call [v._get_eval(x_dict)] on the value of a slot;
    [operand_get_eval v x] is what [LossOperator._get_eval] does for one
    operand.  A dictionary is named by its location; the pair returned is the
    value and the dictionary object returned.  The keyword arguments are
    handed down unread and are left out. *)
Fixpoint _get_eval (l : loss T) (x : positive) {struct l} : M T W (T * positive) :=
  match l with
  | ValueLoss v => mret (v, x)
  | Parameter' name =>
      d ← read x;
      match d !! name with
      | Some v => mret (v, x)
      | None => raise (KeyError name)
      end
  | LossOperator cls _ slot1 slot2 =>
      '(v1, x1) ← operand_get_eval slot1 x;
      '(v2, x2) ← operand_get_eval slot2 x;
      dict_update x1 x2;;
      v ← lift EngineError (binary_apply cls v1 v2);
      mret (v, x1)
  | LossSelfOperator cls _ slot1 =>
      '(v, x1) ← call_get_eval slot1 x;
      v' ← lift EngineError (unary_apply cls v);
      mret (v', x1)
  | SetLoss _ inner => _get_eval inner x
  | Expectation p f _ shape =>
      samples_dict ← call_sample p x shape;
      (* self._f.eval(samples_dict, return_dict=True) *)
      check_input (input_var f) samples_dict;;
      '(v, loss_sample_dict) ← _get_eval f samples_dict;
      dict_update samples_dict loss_sample_dict;;
      v' ← lift EngineError (t_view_mean (numel shape) v);
      mret (v', samples_dict)
  end
with call_get_eval (v : pyval T) (x : positive) {struct v} : M T W (T * positive) :=
  match v with
  | VLoss l => _get_eval l x
  | _ => raise (AttributeError (type_of v) "_get_eval")
  end
with operand_get_eval (v : pyval T) (x : positive) {struct v} : M T W (T * positive) :=
  (* LossOperator._get_eval: an operand that is None counts as 0 and {} *)
  match v with
  | VNone => d ← new_dict; mret (t_zero, d)
  | VLoss l => _get_eval l x
  | _ => raise (AttributeError (type_of v) "_get_eval")
  end.

(** [Loss.eval(self, x_dict, return_dict=True)] *)
Definition eval (l : loss T) (x : positive) : M T W (T * positive) :=
  check_input (input_var l) x;;
  _get_eval l x.

(** [Loss.eval(self, x_dict)], with [return_dict=False] *)
Definition eval_value (l : loss T) (x : positive) : M T W T :=
  '(v, _) ← eval l x;
  mret v.

(** *** Notions for the statements *)

(** The two calls [a.eval(x_dict)] and [b.eval(x_dict)] made one after the
    other on the same dictionary object, and [op] applied to the two values;
    and the one call [a.eval(x_dict)] with [op] applied to its value. *)
Definition eval_both (op : T → T → option T) (a b : loss T) (x : positive)
  : M T W T :=
  v1 ← eval_value a x;
  v2 ← eval_value b x;
  lift EngineError (op v1 v2).

Definition eval_one (op : T → option T) (a : loss T) (x : positive) : M T W T :=
  v ← eval_value a x;
  lift EngineError (op v).

(** What a caller sees of a call that ran from [σ]: the value and the
    contents of the dictionary returned, or the exception. *)
Definition outcome (r : result ((T * positive) * state T W))
  : result (T * gmap string T) :=
  '((v, x), σ') ← r; Ok (v, heap σ' !!! x).

Definition value_of {A : Type} (r : result (A * state T W)) : result A :=
  fst <$> r.

(** Trees with no [Expectation] node in them. *)
Fixpoint no_Expectation (l : loss T) : Prop :=
  match l with
  | ValueLoss _ | Parameter' _ => True
  | LossOperator _ _ slot1 slot2 => slot_no_Expectation slot1 ∧ slot_no_Expectation slot2
  | LossSelfOperator _ _ slot1 => slot_no_Expectation slot1
  | SetLoss _ inner => no_Expectation inner
  | Expectation _ _ _ _ => False
  end
with slot_no_Expectation (v : pyval T) : Prop :=
  match v with
  | VLoss l => no_Expectation l
  | _ => True
  end.

(** What [_get_eval] of a tree with no [Expectation] comes to, as a function
    of the contents [d] of the dictionary given: the value and the contents of
    the dictionary returned.  (On an [Expectation] node it is not meant.) *)
Fixpoint contents_get_eval (l : loss T) (d : gmap string T)
  : result (T * gmap string T) :=
  match l with
  | ValueLoss v => Ok (v, d)
  | Parameter' name =>
      match d !! name with
      | Some v => Ok (v, d)
      | None => Raise (KeyError name)
      end
  | LossOperator cls _ slot1 slot2 =>
      '(v1, d1) ← contents_operand_get_eval slot1 d;
      '(v2, d2) ← contents_operand_get_eval slot2 d;
      v ← of_option EngineError (binary_apply cls v1 v2);
      Ok (v, d2 ∪ d1)
  | LossSelfOperator cls _ slot1 =>
      '(v, d1) ← contents_call_get_eval slot1 d;
      v' ← of_option EngineError (unary_apply cls v);
      Ok (v', d1)
  | SetLoss _ inner => contents_get_eval inner d
  | Expectation _ _ _ _ => Raise SampleError
  end
with contents_call_get_eval (v : pyval T) (d : gmap string T)
  : result (T * gmap string T) :=
  match v with
  | VLoss l => contents_get_eval l d
  | _ => Raise (AttributeError (type_of v) "_get_eval")
  end
with contents_operand_get_eval (v : pyval T) (d : gmap string T)
  : result (T * gmap string T) :=
  match v with
  | VNone => Ok (t_zero, ∅)
  | VLoss l => contents_get_eval l d
  | _ => Raise (AttributeError (type_of v) "_get_eval")
  end.

(** [σ'] has every dictionary of [σ], with the contents it had in [σ]. *)
Definition preserved (σ σ' : state T W) : Prop :=
  ∀ y, y ∈ dom (heap σ) → heap σ' !! y = heap σ !! y.

(** A run from [σ] on the dictionary [x] does what [c] says and nothing
    else: same exception; or same value, a dictionary returned with the
    contents [c] gives (the one given or a new one), the sampler's state
    untouched, and no dictionary of [σ] changed. *)
Definition run_agrees (r : result ((T * positive) * state T W))
    (c : result (T * gmap string T)) (x : positive) (σ : state T W) : Prop :=
  match c with
  | Raise e => r = Raise e
  | Ok (v, d) =>
      ∃ x' σ', r = Ok ((v, x'), σ')
        ∧ world σ' = world σ
        ∧ heap σ' !! x' = Some d
        ∧ preserved σ σ'
        ∧ d ⊆ heap σ !!! x
        ∧ (x' = x ∨ x' ∉ dom (heap σ))
  end.

(** Trees in which every node's [input_var] has the names its operands
    need: an operator node those of its operands, a [SetLoss] those of its
    inner loss, an [Expectation] those of its integrand that [p] does not
    sample.  The constructors build such trees when [input_var] is left to
    them. *)
Fixpoint well_scoped (l : loss T) : Prop :=
  match l with
  | ValueLoss _ | Parameter' _ => True
  | LossOperator _ iv slot1 slot2 => slot_well_scoped iv slot1 ∧ slot_well_scoped iv slot2
  | LossSelfOperator _ iv slot1 => slot_well_scoped iv slot1
  | SetLoss iv inner => well_scoped inner ∧ input_var inner ⊆ iv
  | Expectation p f iv _ =>
      well_scoped f ∧ ∀ name, name ∈ input_var f → name ∉ d_var p → name ∈ iv
  end
with slot_well_scoped (iv : list string) (v : pyval T) {struct v} : Prop :=
  match v with
  | VLoss l => well_scoped l ∧ input_var l ⊆ iv
  | _ => True
  end.

Definition validation_error (e : exn) : Prop :=
  match e with
  | InputKeysError _ => True
  | _ => False
  end.

(** The exceptions that come from inside [_get_eval] of a tree with no
    [Expectation]: a missing key, a slot that holds no loss, the engine. *)
Definition evaluation_error (e : exn) : Prop :=
  match e with
  | KeyError _ | AttributeError _ _ | EngineError => True
  | _ => False
  end.

Definition contents_eval (l : loss T) (d : gmap string T)
  : result (T * gmap string T) :=
  if bool_decide (list_to_set (input_var l) ⊆ dom d) then contents_get_eval l d
  else Raise (InputKeysError (dom d)).

End Evaluation.

(** ** Symbols *)

(** What the code uses of the typesetting library: [sympy.Symbol],
    the arithmetic of symbols, and [sympy.latex].  A [ValueLoss] gives its
    value itself as its symbol. *)
Class Sympy (S T : Type) : Type := {
  s_value : T → S;
  s_Symbol : string → S;
  s_add : S → S → option S;
  s_sub : S → S → option S;
  s_mul : S → S → option S;
  s_truediv : S → S → option S;
  s_neg : S → option S;
  latex : S → string
}.

Section Symbols.
Context {S T : Type} `{Sympy S T}.

Definition binary_symbol (cls : binary_class) (s1 s2 : S) : option S :=
  match cls with
  | AddLoss => s_add s1 s2
  | SubLoss => s_sub s1 s2
  | MulLoss => s_mul s1 s2
  | DivLoss => s_truediv s1 s2
  end.

(** The [_symbol] property of every class; [slot_symbol v] is the attribute
    access [v._symbol] on the value of a slot, [slot_loss_text] is
    [v.loss_text], that is [sympy.latex(v._symbol)]. *)
Fixpoint _symbol (l : loss T) : result S :=
  match l with
  | ValueLoss v => Ok (s_value v)
  | Parameter' name => Ok (s_Symbol name)
  | LossOperator cls _ slot1 slot2 =>
      s1 ← slot_symbol slot1;
      s2 ← slot_symbol slot2;
      of_option EngineError (binary_symbol cls s1 s2)
  | LossSelfOperator cls _ slot1 =>
      match cls with
      | NegLoss => s ← slot_symbol slot1; of_option EngineError (s_neg s)
      | AbsLoss =>
          t ← slot_loss_text slot1; Ok (s_Symbol ("|" +:+ t +:+ "|"))
      | BatchMean =>
          t ← slot_loss_text slot1; Ok (s_Symbol ("mean \left(" +:+ t +:+ " \right)"))
      | BatchSum =>
          t ← slot_loss_text slot1; Ok (s_Symbol ("sum \left(" +:+ t +:+ " \right)"))
      end
  | SetLoss _ inner => _symbol inner
  | Expectation p f _ _ =>
      let p_text := "{" +:+ d_prob_text p +:+ "}" in
      t ← latex <$> _symbol f;
      Ok (s_Symbol ("\mathbb{E}_" +:+ p_text +:+ " \left[" +:+ t +:+ " \right]"))
  end
with slot_symbol (v : pyval T) : result S :=
  match v with
  | VLoss l => _symbol l
  | _ => Raise (AttributeError (type_of v) "_symbol")
  end
with slot_loss_text (v : pyval T) : result string :=
  match v with
  | VLoss l => latex <$> _symbol l
  | _ => Raise (AttributeError (type_of v) "loss_text")
  end.

Definition loss_text (l : loss T) : result string := latex <$> _symbol l.

End Symbols.

(** ** Instances: rational tensors, a sampler, an iteration order *)

(** A model of values for running the definitions: a Python number, or a
    tensor given by its shape and its entries in row-major order.  Entries
    are rationals kept in lowest terms; an operation whose floating-point
    result would be [inf] or [nan] raises instead.  Of broadcasting, only a
    number against a tensor and equal shapes are covered; other pairs of
    shapes raise.  (The engine of the source returns [inf] or [nan] and
    broadcasts more pairs of shapes; the statements at concrete inputs use
    neither a division by zero nor unequal shapes.) *)
Inductive qvalue : Type :=
| QNum (q : Q)
| QTensor (shape : list nat) (data : list Q).

Definition q_div (x y : Q) : option Q :=
  if Qeq_bool y 0 then None else Some (Qred (x / y)).

Definition q_pointwise (f : Q → Q → option Q) (a b : qvalue) : option qvalue :=
  match a, b with
  | QNum x, QNum y => QNum <$> f x y
  | QNum x, QTensor s d => QTensor s <$> mapM (f x) d
  | QTensor s d, QNum y => QTensor s <$> mapM (λ x, f x y) d
  | QTensor s1 d1, QTensor s2 d2 =>
      if decide (s1 = s2) then QTensor s1 <$> mapM (λ xy, f xy.1 xy.2) (zip d1 d2)
      else None
  end.

Definition q_map (f : Q → Q) (a : qvalue) : qvalue :=
  match a with
  | QNum x => QNum (f x)
  | QTensor s d => QTensor s (f <$> d)
  end.

Definition q_total (d : list Q) : Q := Qred (foldr Qplus 0%Q d).

(** [t.sum()] and [t.mean()]: over every entry, whatever the shape; a
    number has neither method. *)
Definition q_sum (a : qvalue) : option qvalue :=
  match a with
  | QNum _ => None
  | QTensor _ d => Some (QTensor [] [q_total d])
  end.

Definition q_mean (a : qvalue) : option qvalue :=
  match a with
  | QNum _ => None
  | QTensor _ d =>
      r ← q_div (q_total d) (inject_Z (Z.of_nat (length d)));
      Some (QTensor [] [r])
  end.

(** the rows of a row-major block: [n] rows of [m] entries *)
Fixpoint rows (n m : nat) (d : list Q) : list (list Q) :=
  match n with
  | 0 => []
  | S n' => take m d :: rows n' m (drop m d)
  end.

Definition column_totals (m : nat) (rs : list (list Q)) : list Q :=
  Qred <$> foldr (zip_with Qplus) (replicate m 0%Q) rs.

(** [t.sum(dim=0)] and [t.mean(dim=0)]: over the leading dimension only. *)
Definition q_sum_dim0 (a : qvalue) : option qvalue :=
  match a with
  | QNum _ => None
  | QTensor [] d => Some (QTensor [] d)
  | QTensor (n :: rest) d =>
      Some (QTensor rest (column_totals (foldr Nat.mul 1 rest) (rows n (foldr Nat.mul 1 rest) d)))
  end.

Definition q_mean_dim0 (a : qvalue) : option qvalue :=
  match a with
  | QNum _ => None
  | QTensor [] d => Some (QTensor [] d)
  | QTensor (n :: rest) d =>
      let m := foldr Nat.mul 1 rest in
      QTensor rest <$> mapM (λ c, q_div c (inject_Z (Z.of_nat n))) (column_totals m (rows n m d))
  end.

(** [t.view(n, -1).mean(dim=0)] *)
Definition q_view_mean (n : nat) (a : qvalue) : option qvalue :=
  match a with
  | QNum _ => None
  | QTensor _ d =>
      if decide (n = 0) then None
      else if decide (length d `mod` n = 0)
      then q_mean_dim0 (QTensor [n; length d `div` n] d)
      else None
  end.

#[global] Instance qvalue_tensor : Tensor qvalue := {|
  t_zero := QNum 0;
  t_add := q_pointwise (λ x y, Some (Qred (x + y)));
  t_sub := q_pointwise (λ x y, Some (Qred (x - y)));
  t_mul := q_pointwise (λ x y, Some (Qred (x * y)));
  t_truediv := q_pointwise q_div;
  t_neg := λ a, Some (q_map (λ x, Qred (- x)) a);
  t_abs := λ a, match a with QNum _ => None | _ => Some (q_map (λ x, Qred (Qabs x)) a) end;
  t_mean := q_mean;
  t_sum := q_sum;
  t_view_mean := q_view_mean
|}.

(** A sampler for running the definitions.  Its state counts the calls made;
    a call returns a new dictionary: the entries of the one given, and for
    every name of [p.var] a tensor of [numel sample_shape] draws. *)
Definition draw (k : nat) (seed : nat) : qvalue :=
  QTensor [k] (replicate k (inject_Z (Z.of_nat seed))).

Definition counting_sample (p : dist) (x : positive) (sh : list nat)
    (σ : state qvalue nat) : option (positive * state qvalue nat) :=
  let l := fresh (dom (heap σ)) in
  let drawn : gmap string qvalue :=
    list_to_map ((λ n, (n, draw (numel sh) (world σ))) <$> d_var p) in
  Some (l, {| heap := <[l := drawn ∪ (heap σ !!! x)]> (heap σ);
              world := Datatypes.S (world σ) |}).

#[global] Instance counting_sampler : Sampler qvalue nat := {|
  sample := counting_sample
|}.

(** An iteration order: the order of the set's [elements]. *)
#[global] Instance elements_iter : SetIter := {|
  set_iter := elements;
  set_iter_NoDup := NoDup_elements;
  elem_of_set_iter := λ X x, elem_of_elements X x
|}.

(** A state with one dictionary object, at location [1]. *)
Definition one_dict (d : gmap string qvalue) : state qvalue nat :=
  {| heap := {[ 1%positive := d ]}; world := 0 |}.

(** Inputs for the examples. *)
Definition p_z : dist :=
  {| d_input_var := []; d_var := ["z"]; d_prob_text := "p(z)" |}.

Definition p_z_given_xz : dist :=
  {| d_input_var := ["x"; "z"]; d_var := ["z"]; d_prob_text := "p(z|x,z)" |}.

Definition tensor_1x2 : qvalue := QTensor [1; 2] [1; 3]%Q.

Definition vector_5 : qvalue := QTensor [1] [5%Q].

Definition x_loss : loss qvalue := Parameter' "x".

Definition z_loss : loss qvalue := Parameter' "z".

(** [z_loss.expectation(p_z, input_var=[])] and
    [x_loss.expectation(p_z, input_var=[])] *)
Definition expected_z : loss qvalue := Expectation p_z z_loss [] [].

Definition expected_x : loss qvalue := Expectation p_z x_loss [] [].

(** two stores that hold a dictionary [{"x": vector_5}], at different
    places and with different sampler states *)
Definition store_a : state qvalue nat := one_dict {[ "x" := vector_5 ]}.

Definition store_b : state qvalue nat :=
  {| heap := {[ 3%positive := {[ "y" := tensor_1x2 ]};
                7%positive := {[ "x" := vector_5 ]} ]};
     world := 5 |}.

(** the dictionary and the store that [p_z.sample] returns from the store
    with one empty dictionary *)
Definition sampled_dict : positive :=
  match counting_sample p_z 1 [] (one_dict ∅) with
  | Some (d, _) => d
  | None => 1%positive
  end.

Definition sampled_store : state qvalue nat :=
  match counting_sample p_z 1 [] (one_dict ∅) with
  | Some (_, σ) => σ
  | None => one_dict ∅
  end.

(** [w + E_p[z]] with the names left to the constructors, and a store whose
    one dictionary is [{"w": 10, "z": 100}], the sampler about to draw [7] *)
Definition w_plus_expected_z : loss qvalue :=
  LossOperator AddLoss ["w"] (VLoss (Parameter' "w")) (VLoss expected_z).

Definition store_wz : state qvalue nat :=
  {| heap := {[ 1%positive :=
                  {[ "w" := QTensor [1] [10%Q]; "z" := QTensor [1] [100%Q] ]} ]};
     world := 7 |}.

(** [AbsLoss(-3)]: the number is stored as a [ValueLoss], and [abs()] is
    called on it *)
Definition abs_of_number : loss qvalue :=
  LossSelfOperator AbsLoss [] (VLoss (ValueLoss (QNum (-3)))).


(** a distribution with [input_var = ["b"; "a"]] that samples nothing, and
    one with a name twice in [input_var] *)
Definition p_ba : dist :=
  {| d_input_var := ["b"; "a"]; d_var := []; d_prob_text := "p(|b,a)" |}.

Definition p_xx : dist :=
  {| d_input_var := ["x"; "x"]; d_var := []; d_prob_text := "p(|x,x)" |}.

(** what a call of [eval] returned, for the statements at concrete inputs *)
Definition returned (r : result ((qvalue * positive) * state qvalue nat))
  : (qvalue * positive) * state qvalue nat :=
  match r with
  | Ok r => r
  | Raise _ => ((QNum 0, 1%positive), one_dict ∅)
  end.

(** Symbols for running the definitions: a symbol is its text; a value
    prints as [c]. *)
#[global] Instance text_sympy : Sympy string qvalue := {|
  s_value := λ _, "c";
  s_Symbol := λ name, name;
  s_add := λ s1 s2, Some (s1 +:+ " + " +:+ s2);
  s_sub := λ s1 s2, Some (s1 +:+ " - " +:+ s2);
  s_mul := λ s1 s2, Some (s1 +:+ " " +:+ s2);
  s_truediv := λ s1 s2, Some (s1 +:+ " / " +:+ s2);
  s_neg := λ s, Some ("- " +:+ s);
  latex := λ s, s
|}.

(** [x + None] *)
Definition x_plus_None : loss qvalue :=
  LossOperator AddLoss ["x"] (VLoss x_loss) VNone.

(** ** Trees as the overloads build them *)

Section Slots.
Context {T : Type}.

(** Trees in which every slot holds what the overloads and the constructors
    called on losses and numbers put there: a loss in the slot of a unary
    node and in the first slot of a binary node (a number is stored as a
    [ValueLoss]), a loss or [None] in the second slot of a binary node. *)
Fixpoint holds_losses (l : loss T) : Prop :=
  match l with
  | ValueLoss _ | Parameter' _ => True
  | LossOperator _ _ slot1 slot2 => slot_holds_loss slot1 ∧ operand_holds_loss slot2
  | LossSelfOperator _ _ slot1 => slot_holds_loss slot1
  | SetLoss _ inner => holds_losses inner
  | Expectation _ f _ _ => holds_losses f
  end
with slot_holds_loss (v : pyval T) : Prop :=
  match v with
  | VLoss l => holds_losses l
  | _ => False
  end
with operand_holds_loss (v : pyval T) : Prop :=
  match v with
  | VLoss l => holds_losses l
  | VNone => True
  | _ => False
  end.

(** The exceptions left inside [_get_eval] to a tree of this kind whose
    [input_var]s cover its operands: that of an operation on a value, that
    of the sampler. *)
Definition engine_or_sample_error (e : exn) : Prop :=
  e = EngineError ∨ e = SampleError.

End Slots.

(** ** [train], [test] and [SetLoss.__getattr__] *)

(** [LossSelfOperator] defines [train] and [test]; [Loss] and the other
    classes of the module define neither.  [SetLoss.__getattr__] is what
    Python calls for an attribute that the normal lookup does not find on a
    [SetLoss]. *)
Inductive method : Type := Train | Test.

Definition method_name (m : method) : string :=
  match m with Train => "train" | Test => "test" end.

(** what the lookup and the call of such an attribute can raise:
    [AttributeError] (no such attribute) and [TypeError] (the object is not
    callable) *)
Inductive call_exn : Type :=
| NoAttribute (ty : pytype) (name : string)
| NotCallable (ty : pytype).

(** what [getattr(l, m)] returns: the method bound to a node, or [None] *)
Inductive attribute (T : Type) : Type :=
| BoundMethod (self : loss T)
| NoneObject.

Arguments BoundMethod {T} self.
Arguments NoneObject {T}.

Section Methods.
Context {T R : Type}.

(** [getattr(l, m)] for [m] one of [train], [test].  On a [SetLoss] this is
    [SetLoss.__getattr__(self, name)], whose body [getattr(self._loss, name)]
    is an expression statement: its value is dropped and the call returns
    [None]. *)
Fixpoint Loss_getattr (m : method) (l : loss T) : call_exn + attribute T :=
  match l with
  | LossSelfOperator _ _ _ => inr (BoundMethod l)
  | SetLoss _ inner =>
      match Loss_getattr m inner with
      | inl e => inl e
      | inr _ => inr NoneObject
      end
  | _ => inl (NoAttribute (TyLoss (class_name l)) (method_name m))
  end.

(** The call [l.train(x_dict)] (or [l.test(x_dict)]) with a result in [R]:
    the attribute is looked up and what is found is called.  The method of a
    [LossSelfOperator] is [return self._loss1.train(x_dict, **kwargs)];
    [slot_call] is that call on the value of the slot. *)
Fixpoint Loss_call (m : method) (l : loss T) : call_exn + R :=
  match l with
  | LossSelfOperator _ _ slot1 => slot_call m slot1
  | SetLoss _ inner =>
      match Loss_getattr m inner with
      | inl e => inl e
      | inr _ => inl (NotCallable TyNoneType)
      end
  | _ => inl (NoAttribute (TyLoss (class_name l)) (method_name m))
  end
with slot_call (m : method) (v : pyval T) : call_exn + R :=
  match v with
  | VLoss l => Loss_call m l
  | _ => inl (NoAttribute (type_of v) (method_name m))
  end.

(** The value at which a chain of unary nodes ends: the first that is not
    a unary node. *)
Fixpoint chain_end (l : loss T) : pyval T :=
  match l with
  | LossSelfOperator _ _ slot1 => slot_chain_end slot1
  | _ => VLoss l
  end
with slot_chain_end (v : pyval T) : pyval T :=
  match v with
  | VLoss l => chain_end l
  | _ => v
  end.

(** The loss under a chain of [SetLoss] nodes. *)
Fixpoint under_SetLoss (l : loss T) : loss T :=
  match l with
  | SetLoss _ inner => under_SetLoss inner
  | _ => l
  end.

End Methods.

(** * Properties *)

(** ** [sorted(set(l), key=l.index)] is the list of first occurrences *)

Lemma py_index_elem_of l x : x ∈ l → py_index l x = Ok (idx l x).
Proof.
  unfold idx. induction l as [|y r IH]; intros Hx.
  - by apply elem_of_nil in Hx.
  - simpl. destruct (decide (y = x)) as [->|Hne]; [done|].
    apply elem_of_cons in Hx as [->|Hx]; [done|].
    specialize (IH Hx). destruct (py_index r x); by simplify_eq/=.
Qed.

Lemma idx_cons_eq r x : idx (x :: r) x = 0.
Proof. unfold idx. simpl. by rewrite decide_True. Qed.

Lemma idx_cons_ne y r x : y ≠ x → x ∈ r → idx (y :: r) x = S (idx r x).
Proof.
  intros Hne Hx. unfold idx at 1. simpl. rewrite decide_False by done.
  by rewrite (py_index_elem_of r x Hx).
Qed.

Lemma idx_lookup l x : x ∈ l → l !! idx l x = Some x.
Proof.
  induction l as [|y r IH]; intros Hx.
  - by apply elem_of_nil in Hx.
  - destruct (decide (y = x)) as [->|Hne].
    + by rewrite idx_cons_eq.
    + apply elem_of_cons in Hx as [->|Hx]; [done|].
      rewrite idx_cons_ne by done. by apply IH.
Qed.

Lemma idx_inj l x y : x ∈ l → y ∈ l → idx l x = idx l y → x = y.
Proof.
  intros Hx Hy E. apply idx_lookup in Hx, Hy. rewrite E in Hx. congruence.
Qed.

Lemma idx_app_r pre l x : x ∉ pre → x ∈ l → idx (pre ++ l) x = length pre + idx l x.
Proof.
  intros Hpre Hx. induction pre as [|y pre IH]; [done|].
  apply not_elem_of_cons in Hpre as [Hne Hpre]. simpl.
  rewrite idx_cons_ne; [by rewrite IH| done |].
  apply elem_of_app. by right.
Qed.

Lemma decorate_index l s :
  (∀ x, x ∈ s → x ∈ l) →
  decorate (py_index l) s = Ok ((λ x, (idx l x, x)) <$> s).
Proof.
  induction s as [|x s IH]; intros Hs; [done|].
  simpl. rewrite py_index_elem_of by (apply Hs; left). simpl.
  rewrite IH; [done|]. intros y Hy. apply Hs. by right.
Qed.

Lemma insert_stable_perm {A} (kx : nat * A) s : insert_stable kx s ≡ₚ kx :: s.
Proof.
  induction s as [|ky r IH]; [done|]. simpl. case_decide; [done|].
  rewrite IH. apply Permutation_swap.
Qed.

Lemma sort_stable_perm {A} (ds : list (nat * A)) : sort_stable ds ≡ₚ ds.
Proof.
  induction ds as [|kx ds IH]; [done|]. simpl.
  rewrite insert_stable_perm. by f_equiv.
Qed.

Lemma insert_stable_sorted {A} (kx : nat * A) s :
  Sorted (λ a b, a.1 ≤ b.1) s → Sorted (λ a b, a.1 ≤ b.1) (insert_stable kx s).
Proof.
  induction 1 as [|ky r Hr IH Hhd]; simpl.
  - by repeat constructor.
  - case_decide as Hle.
    + constructor; [by constructor|]. by constructor.
    + constructor; [done|].
      destruct Hhd as [|kz r' Hz]; simpl.
      * constructor. lia.
      * case_decide; constructor; [lia|done].
Qed.

Lemma sort_stable_sorted {A} (ds : list (nat * A)) :
  Sorted (λ a b, a.1 ≤ b.1) (sort_stable ds).
Proof.
  induction ds as [|kx ds IH]; simpl; [constructor|].
  by apply insert_stable_sorted.
Qed.

Lemma elem_of_first_occurrences_from seen l x :
  x ∈ first_occurrences_from seen l ↔ x ∈ l ∧ x ∉ seen.
Proof.
  revert seen. induction l as [|y r IH]; intros seen; simpl.
  - set_solver.
  - case_decide as Hy.
    + rewrite IH. set_solver.
    + rewrite elem_of_cons, IH. destruct (decide (x = y)); set_solver.
Qed.

Lemma elem_of_first_occurrences l x : x ∈ first_occurrences l ↔ x ∈ l.
Proof. unfold first_occurrences. rewrite elem_of_first_occurrences_from. set_solver. Qed.

Lemma NoDup_first_occurrences_from seen l : NoDup (first_occurrences_from seen l).
Proof.
  revert seen. induction l as [|y r IH]; intros seen; simpl; [constructor|].
  case_decide; [done|]. constructor; [|done].
  rewrite elem_of_first_occurrences_from. set_solver.
Qed.

Lemma NoDup_first_occurrences l : NoDup (first_occurrences l).
Proof. apply NoDup_first_occurrences_from. Qed.

(** Along the list of first occurrences the positions in [l] grow. *)
Lemma first_occurrences_from_sorted pre l :
  StronglySorted lt (idx (pre ++ l) <$> first_occurrences_from (list_to_set pre) l)
  ∧ Forall (λ x, length pre ≤ idx (pre ++ l) x) (first_occurrences_from (list_to_set pre) l).
Proof.
  revert pre. induction l as [|y r IH]; intros pre; simpl.
  - split; constructor.
  - assert (E : pre ++ y :: r = (pre ++ [y]) ++ r) by by rewrite <- app_assoc.
    specialize (IH (pre ++ [y])). rewrite <- E in IH.
    rewrite length_app in IH. simpl in IH.
    case_decide as Hy.
    + replace (list_to_set (pre ++ [y]) : gset string) with (list_to_set pre : gset string)
        in IH by (rewrite list_to_set_app_L; set_solver).
      destruct IH as [IH1 IH2]. split; [done|].
      eapply Forall_impl; [exact IH2|]. simpl. lia.
    + replace (list_to_set (pre ++ [y]) : gset string) with ({[y]} ∪ list_to_set pre : gset string)
        in IH by (rewrite list_to_set_app_L; set_solver).
      destruct IH as [IH1 IH2].
      assert (Hidx : idx (pre ++ y :: r) y = length pre).
      { rewrite idx_app_r; [rewrite idx_cons_eq; lia| set_solver | left]. }
      split.
      * simpl. constructor; [done|]. rewrite Hidx.
        apply Forall_fmap. eapply Forall_impl; [exact IH2|]. simpl. lia.
      * constructor; [lia|]. eapply Forall_impl; [exact IH2|]. simpl. lia.
Qed.

Lemma StronglySorted_lt_le (ks : list nat) :
  StronglySorted lt ks → StronglySorted le ks.
Proof.
  induction 1 as [|k ks Hks IH Hk]; constructor; [done|].
  eapply Forall_impl; [exact Hk|]. simpl. lia.
Qed.

Lemma first_occurrences_sorted l :
  Sorted le (idx l <$> first_occurrences l).
Proof.
  destruct (first_occurrences_from_sorted [] l) as [Hs _]. simpl in Hs.
  by apply StronglySorted_Sorted, StronglySorted_lt_le.
Qed.

Lemma fmap_idx_inj (l l1 l2 : list string) :
  (∀ x, x ∈ l1 → x ∈ l) → (∀ x, x ∈ l2 → x ∈ l) →
  idx l <$> l1 = idx l <$> l2 → l1 = l2.
Proof.
  revert l2. induction l1 as [|x l1 IH]; intros [|y l2] H1 H2 E; simplify_eq/=; [done|].
  f_equal.
  - eapply idx_inj; [apply H1; left|apply H2; left|done].
  - apply IH; [| |done]; intros z Hz; [apply H1|apply H2]; by right.
Qed.

(** Whatever order the set is iterated in, sorting it by first position gives
    the list of first occurrences. *)
Lemma sorted_key_index_enumeration l s :
  NoDup s → (∀ x, x ∈ s ↔ x ∈ l) →
  sorted_key (py_index l) s = Ok (first_occurrences l).
Proof.
  intros Hnd Hs. unfold sorted_key.
  rewrite decorate_index by (intros x; apply Hs). simpl. f_equal.
  set (f := λ x : string, (idx l x, x)).
  set (out := sort_stable (f <$> s)).
  assert (Hperm : out ≡ₚ f <$> first_occurrences l).
  { unfold out. rewrite sort_stable_perm. apply fmap_Permutation.
    apply NoDup_Permutation; [done|apply NoDup_first_occurrences|].
    intros x. by rewrite Hs, elem_of_first_occurrences. }
  assert (Hall : Forall (λ kx, kx.1 = idx l kx.2 ∧ kx.2 ∈ l) out).
  { rewrite Hperm. apply Forall_fmap, Forall_forall. intros x Hx. simpl.
    split; [done|]. by apply elem_of_first_occurrences. }
  assert (Hkeys : out.*1 = idx l <$> out.*2).
  { clear -Hall. induction Hall as [|kx r [Hk _] _ IH]; [done|].
    rewrite !fmap_cons, Hk, IH. done. }
  assert (Hin : ∀ x, x ∈ out.*2 → x ∈ l).
  { clear -Hall. induction Hall as [|kx r [_ Hk] _ IH]; intros x Hx.
    - by apply elem_of_nil in Hx.
    - simpl in Hx. apply elem_of_cons in Hx as [->|Hx]; auto. }
  apply (fmap_idx_inj l); [done| |].
  { intros x. by rewrite elem_of_first_occurrences. }
  rewrite <- Hkeys.
  apply (Sorted_unique le).
  - apply (Sorted_fmap fst (λ a b : nat * string, a.1 ≤ b.1) le); [done|].
    apply sort_stable_sorted.
  - apply first_occurrences_sorted.
  - rewrite Hperm, <- list_fmap_compose. done.
Qed.

Lemma sorted_set_by_index_first_occurrences `{SetIter} l :
  sorted_set_by_index l = Ok (first_occurrences l).
Proof.
  apply sorted_key_index_enumeration; [apply set_iter_NoDup|].
  intros x. rewrite elem_of_set_iter. apply elem_of_list_to_set.
Qed.

(** ** The constructors *)

Section Constructors.
Context `{SetIter} {T : Type}.

Lemma LossOperator_init_losses (cls : binary_class) (a b : loss T) :
  LossOperator_init cls (VLoss a) (VLoss b)
  = Ok (LossOperator cls (first_occurrences (input_var a ++ input_var b))
          (VLoss a) (VLoss b)).
Proof.
  unfold LossOperator_init. simpl.
  by rewrite sorted_set_by_index_first_occurrences.
Qed.

(** C1.  For all loss nodes [a] and [b] and each of the four binary classes,
    the constructor returns a node, and the node's [input_var] is
    [a.input_var ++ b.input_var] with duplicates removed, every name at the
    place of its first occurrence: it has no duplicate, it has the names of
    [a] and of [b] and no other, and the positions of its names in the
    concatenation grow along it.  This holds for every order in which a set
    may be iterated. *)
Theorem LossOperator_init_input_var (cls : binary_class) (a b : loss T) :
  ∃ n, LossOperator_init cls (VLoss a) (VLoss b) = Ok n
     ∧ input_var n = first_occurrences (input_var a ++ input_var b)
     ∧ NoDup (input_var n)
     ∧ (∀ x, x ∈ input_var n ↔ x ∈ input_var a ∨ x ∈ input_var b)
     ∧ StronglySorted lt (idx (input_var a ++ input_var b) <$> input_var n).
Proof.
  eexists. split; [apply LossOperator_init_losses|]. simpl.
  split; [done|]. split; [apply NoDup_first_occurrences|]. split.
  - intros x. by rewrite elem_of_first_occurrences, elem_of_app.
  - apply (first_occurrences_from_sorted [] (input_var a ++ input_var b)).
Qed.

(** The same through the operator overloads [a + b], [a - b], [a * b],
    [a / b]. *)
Lemma Loss_add_input_var (a b : loss T) :
  input_var <$> Loss_add a (VLoss b) = Ok (first_occurrences (input_var a ++ input_var b))
  ∧ input_var <$> Loss_sub a (VLoss b) = Ok (first_occurrences (input_var a ++ input_var b))
  ∧ input_var <$> Loss_mul a (VLoss b) = Ok (first_occurrences (input_var a ++ input_var b))
  ∧ input_var <$> Loss_truediv a (VLoss b) = Ok (first_occurrences (input_var a ++ input_var b)).
Proof.
  unfold Loss_add, Loss_sub, Loss_mul, Loss_truediv.
  by rewrite !LossOperator_init_losses.
Qed.

(** A number is promoted to a [ValueLoss], which adds no name. *)
Lemma LossOperator_init_number (cls : binary_class) (a : loss T) (k : T) :
  LossOperator_init cls (VLoss a) (VNum k)
  = Ok (LossOperator cls (first_occurrences (input_var a)) (VLoss a) (VLoss (ValueLoss k))).
Proof.
  unfold LossOperator_init. simpl.
  by rewrite sorted_set_by_index_first_occurrences.
Qed.

(** Where the operand check does raise: a second operand that is neither a
    loss, a number nor [None]; and a first operand that is neither a loss nor
    a number, when the second operand is not [None]. *)
Lemma LossOperator_init_rejects_second (cls : binary_class) (a : loss T) (v : pyval T) :
  match v with VStr _ | VOther _ => True | _ => False end →
  LossOperator_init cls (VLoss a) v
  = Raise (OperandError (type_of v) (TyLoss (class_name a))).
Proof. by destruct v. Qed.

Lemma LossOperator_init_rejects_first (cls : binary_class) (v1 v2 : pyval T) :
  match v1 with VLoss _ | VNum _ => False | _ => True end →
  v2 ≠ VNone →
  LossOperator_init cls v1 v2 = Raise (OperandError (type_of v1) (type_of v2)).
Proof. by destruct v1, v2. Qed.

(** X5.  A string is rejected in either position, unless it comes first and the
    second operand is [None]. *)
Lemma LossOperator_init_rejects_string (cls : binary_class) (a : loss T) (k : T)
    (s s' : string) :
  LossOperator_init cls (VLoss a) (VStr s)
  = Raise (OperandError (TyOther "str") (TyLoss (class_name a)))
  ∧ LossOperator_init cls (VNum k) (VStr s)
    = Raise (OperandError (TyOther "str") (TyLoss "ValueLoss"))
  ∧ LossOperator_init cls (VStr s) (VLoss a)
    = Raise (OperandError (TyOther "str") (TyLoss (class_name a)))
  ∧ LossOperator_init cls (VStr s) (VNum k)
    = Raise (OperandError (TyOther "str") TyNumber)
  ∧ LossOperator_init (T:=T) cls (VStr s) (VStr s')
    = Raise (OperandError (TyOther "str") (TyOther "str")).
Proof. by repeat split. Qed.

Lemma LossOperator_init_second_None (cls : binary_class) (v1 : pyval T) :
  match v1 with VLoss _ | VNum _ => False | _ => True end →
  LossOperator_init cls v1 VNone = Ok (LossOperator cls [] v1 VNone).
Proof.
  destruct v1; intros []; unfold LossOperator_init; simpl;
    by rewrite sorted_set_by_index_first_occurrences.
Qed.

(** C5 (what the code does).  When the second operand is [None], the first
    operand is not examined: a string, [None] itself or a value of any other
    class is stored in the node's first slot and no error is raised. *)
Theorem LossOperator_init_unchecked_first_operand (cls : binary_class) :
  (∀ s, LossOperator_init (T:=T) cls (VStr s) VNone = Ok (LossOperator cls [] (VStr s) VNone))
  ∧ (∀ c, LossOperator_init (T:=T) cls (VOther c) VNone = Ok (LossOperator cls [] (VOther c) VNone))
  ∧ LossOperator_init (T:=T) cls VNone VNone = Ok (LossOperator cls [] VNone VNone).
Proof. repeat split; intros; by apply LossOperator_init_second_None. Qed.

Lemma LossSelfOperator_init_loss (cls : unary_class) (a : loss T) :
  LossSelfOperator_init cls (VLoss a) = Ok (LossSelfOperator cls (input_var a) (VLoss a)).
Proof. done. Qed.

Lemma Expectation_init_default (p : dist) (f : loss T) (sh : list nat) :
  Expectation_init p f None sh
  = Ok (Expectation p f
          (set_iter (list_to_set (d_input_var p)
                     ∪ (list_to_set (input_var f) ∖ list_to_set (d_var p)))) sh).
Proof. done. Qed.

Lemma Expectation_init_given (p : dist) (f : loss T) (iv : list string) (sh : list nat) :
  Expectation_init p f (Some iv) sh = Ok (Expectation p f iv sh).
Proof. done. Qed.

(** C2 (amended).  With [input_var] omitted, the node's [input_var] has no
    duplicate and its names are those of [p.input_var] together with those of
    [f.input_var] that are not in [p.var].  When no name of [p.input_var] is
    in [p.var], these are the names of [p.input_var] or [f.input_var] that are
    not in [p.var]. *)
Theorem Expectation_init_default_input_var (p : dist) (f : loss T) (sh : list nat) :
  ∃ n, Expectation_init p f None sh = Ok n
     ∧ NoDup (input_var n)
     ∧ (∀ x, x ∈ input_var n ↔ x ∈ d_input_var p ∨ (x ∈ input_var f ∧ x ∉ d_var p))
     ∧ ((∀ x, x ∈ d_input_var p → x ∉ d_var p) →
        ∀ x, x ∈ input_var n ↔ (x ∈ d_input_var p ∨ x ∈ input_var f) ∧ x ∉ d_var p).
Proof.
  eexists. split; [apply Expectation_init_default|]. simpl.
  split; [apply set_iter_NoDup|].
  assert (Hin : ∀ x, x ∈ set_iter (list_to_set (d_input_var p)
                     ∪ (list_to_set (input_var f) ∖ list_to_set (d_var p)))
                ↔ x ∈ d_input_var p ∨ (x ∈ input_var f ∧ x ∉ d_var p)).
  { intros x. rewrite elem_of_set_iter. set_solver. }
  split; [done|]. intros Hdisj x. rewrite Hin. naive_solver.
Qed.

(** The constructors build well-scoped trees from well-scoped operands, when
    [input_var] is left to them. *)
Lemma constructors_well_scoped (a b : loss T) :
  well_scoped a → well_scoped b →
  (∀ cls, ∃ n, LossOperator_init cls (VLoss a) (VLoss b) = Ok n ∧ well_scoped n)
  ∧ (∀ cls k, ∃ n, LossOperator_init cls (VLoss a) (VNum k) = Ok n ∧ well_scoped n)
  ∧ (∀ cls, ∃ n, LossOperator_init cls (VLoss a) VNone = Ok n ∧ well_scoped n)
  ∧ (∀ cls, ∃ n, LossSelfOperator_init cls (VLoss a) = Ok n ∧ well_scoped n)
  ∧ well_scoped (SetLoss_init a)
  ∧ (∀ p sh, ∃ n, Expectation_init p a None sh = Ok n ∧ well_scoped n).
Proof.
  intros Ha Hb. repeat split.
  - intros cls. eexists. split; [apply LossOperator_init_losses|]. simpl.
    repeat split; [done| |done|]; intros x Hx;
      apply elem_of_first_occurrences, elem_of_app; auto.
  - intros cls k. eexists. split; [apply LossOperator_init_number|]. simpl.
    repeat split; [done| |]; intros x Hx; [|by apply elem_of_nil in Hx].
    by apply elem_of_first_occurrences.
  - intros cls. eexists. split.
    + unfold LossOperator_init. simpl.
      by rewrite sorted_set_by_index_first_occurrences.
    + simpl. repeat split; [done|]. intros x Hx.
      by apply elem_of_first_occurrences.
  - intros cls. eexists. split; [apply LossSelfOperator_init_loss|]. by simpl.
  - done.
  - done.
  - intros p sh. eexists. split; [apply Expectation_init_default|]. simpl.
    split; [done|]. intros name Hn Hv. apply elem_of_set_iter. set_solver.
Qed.

End Constructors.

(** ** Evaluation: the entry check *)

Section EntryCheck.
Context {T W : Type} `{Tensor T} `{Sampler T W}.

Lemma bind_run {A B : Type} (m : M T W A) (k : A → M T W B) σ :
  (m ≫= k) σ = match m σ with Ok (a, σ') => k a σ' | Raise e => Raise e end.
Proof. done. Qed.

Lemma check_input_run iv x (σ : state T W) :
  check_input iv x σ
  = if bool_decide (list_to_set iv ⊆ dom (heap σ !!! x)) then Ok ((), σ)
    else Raise (InputKeysError (dom (heap σ !!! x))).
Proof.
  unfold check_input. rewrite bind_run. unfold read.
  by case_bool_decide.
Qed.

Lemma eval_run (l : loss T) x (σ : state T W) :
  eval l x σ
  = if bool_decide (list_to_set (input_var l) ⊆ dom (heap σ !!! x))
    then _get_eval l x σ
    else Raise (InputKeysError (dom (heap σ !!! x))).
Proof.
  unfold eval. rewrite bind_run, check_input_run. by case_bool_decide.
Qed.

Lemma eval_value_run (l : loss T) x (σ : state T W) :
  value_of (eval_value l x σ) = fst <$> outcome (eval l x σ).
Proof.
  unfold eval_value, value_of, outcome. rewrite bind_run.
  by destruct (eval l x σ) as [[[v r] σ']|e].
Qed.

(** "Some name of [iv] is missing from the keys" is the failure of the
    superset test. *)
Lemma missing_name_iff (iv : list string) (d : gmap string T) :
  (∃ name, name ∈ iv ∧ name ∉ dom d) ↔ ¬ list_to_set iv ⊆ dom d.
Proof.
  split.
  - intros (name & Hin & Hd) Hsub. apply Hd, Hsub. by apply elem_of_list_to_set.
  - intros Hn.
    assert (Hx : Exists (λ name, name ∉ dom d) iv).
    { apply (not_Forall_Exists (λ name, name ∈ dom d)). intros Hall. apply Hn.
      intros name Hname. apply elem_of_list_to_set in Hname.
      by eapply Forall_forall in Hall. }
    apply Exists_exists in Hx. naive_solver.
Qed.

(** The entry check of [eval]: with a name of [input_var] missing, the call
    raises the validation error, whatever the node. *)
Lemma eval_missing_name (l : loss T) x (σ : state T W) :
  (∃ name, name ∈ input_var l ∧ name ∉ dom (heap σ !!! x)) →
  eval l x σ = Raise (InputKeysError (dom (heap σ !!! x))).
Proof.
  intros Hm. apply missing_name_iff in Hm. rewrite eval_run.
  by rewrite bool_decide_eq_false_2.
Qed.

(** With every name present the check passes and [_get_eval] runs. *)
Lemma eval_superset (l : loss T) x (σ : state T W) :
  list_to_set (input_var l) ⊆ dom (heap σ !!! x) →
  eval l x σ = _get_eval l x σ.
Proof. intros Hs. rewrite eval_run. by rewrite bool_decide_eq_true_2. Qed.

(** [_get_eval] of the composite nodes, run from a state. *)

Lemma get_eval_LossOperator cls iv (slot1 slot2 : pyval T) x (σ : state T W) :
  _get_eval (LossOperator cls iv slot1 slot2) x σ
  = match operand_get_eval slot1 x σ with
    | Raise e => Raise e
    | Ok ((v1, x1), σ1) =>
        match operand_get_eval slot2 x σ1 with
        | Raise e => Raise e
        | Ok ((v2, x2), σ2) =>
            match binary_apply cls v1 v2 with
            | None => Raise EngineError
            | Some v => Ok ((v, x1), updated σ2 x1 x2)
            end
        end
    end.
Proof.
  simpl. rewrite bind_run.
  destruct (operand_get_eval slot1 x σ) as [[[v1 x1] σ1]|e]; [|done].
  rewrite bind_run.
  destruct (operand_get_eval slot2 x σ1) as [[[v2 x2] σ2]|e]; [|done].
  rewrite bind_run. simpl. rewrite bind_run. unfold lift.
  by destruct (binary_apply cls v1 v2).
Qed.

Lemma get_eval_LossSelfOperator cls iv (slot1 : pyval T) x (σ : state T W) :
  _get_eval (LossSelfOperator cls iv slot1) x σ
  = match call_get_eval slot1 x σ with
    | Raise e => Raise e
    | Ok ((v, x1), σ1) =>
        match unary_apply cls v with
        | None => Raise EngineError
        | Some v' => Ok ((v', x1), σ1)
        end
    end.
Proof.
  simpl. rewrite bind_run.
  destruct (call_get_eval slot1 x σ) as [[[v x1] σ1]|e]; [|done].
  rewrite bind_run. unfold lift. by destruct (unary_apply cls v).
Qed.

Lemma get_eval_Expectation p (f : loss T) iv sh x (σ : state T W) :
  _get_eval (Expectation p f iv sh) x σ
  = match sample p x sh σ with
    | None => Raise SampleError
    | Some (samples_dict, σ1) =>
        match eval f samples_dict σ1 with
        | Raise e => Raise e
        | Ok ((v, loss_sample_dict), σ2) =>
            match t_view_mean (numel sh) v with
            | None => Raise EngineError
            | Some v' => Ok ((v', samples_dict), updated σ2 samples_dict loss_sample_dict)
            end
        end
    end.
Proof.
  simpl. rewrite bind_run. unfold call_sample.
  destruct (sample p x sh σ) as [[sd σ1]|]; [|done]. simpl.
  unfold eval. rewrite !bind_run.
  destruct (check_input (input_var f) sd σ1) as [[[] σ1']|e]; [|done].
  rewrite bind_run.
  destruct (_get_eval f sd σ1') as [[[v lsd] σ2]|e]; [|done].
  rewrite bind_run. simpl. rewrite bind_run. unfold lift.
  by destruct (t_view_mean (numel sh) v).
Qed.

End EntryCheck.

(** ** Evaluation of trees with no [Expectation] *)

Section NoExpectation.
Context {T W : Type} `{Tensor T} `{Sampler T W}.

Lemma preserved_refl (σ : state T W) : preserved σ σ.
Proof. by intros y _. Qed.

Lemma preserved_trans (σ1 σ2 σ3 : state T W) :
  preserved σ1 σ2 → preserved σ2 σ3 → preserved σ1 σ3.
Proof.
  intros H12 H23 y Hy. rewrite H23, H12; [done..|].
  apply elem_of_dom. rewrite H12 by done. by apply elem_of_dom.
Qed.

Lemma preserved_dom (σ σ' : state T W) y :
  preserved σ σ' → y ∈ dom (heap σ) → y ∈ dom (heap σ').
Proof. intros Hp Hy. apply elem_of_dom. rewrite Hp by done. by apply elem_of_dom. Qed.

Lemma preserved_contents (σ σ' : state T W) y :
  preserved σ σ' → y ∈ dom (heap σ) → heap σ' !!! y = heap σ !!! y.
Proof. intros Hp Hy. by rewrite !lookup_total_alt, Hp. Qed.

Lemma lookup_contents (σ : state T W) y :
  y ∈ dom (heap σ) → heap σ !! y = Some (heap σ !!! y).
Proof. intros Hy. apply elem_of_dom in Hy. by apply lookup_lookup_total. Qed.

(** an absent operand: the value [0] and a new empty dictionary *)
Lemma absent_operand_agrees x (σ : state T W) :
  run_agrees ((d ← new_dict; mret (t_zero, d)) σ) (Ok (t_zero, ∅)) x σ.
Proof.
  simpl. eexists _, _. split; [reflexivity|]. simpl.
  assert (Hf : fresh (dom (heap σ)) ∉ dom (heap σ)) by apply is_fresh.
  split; [done|]. split; [by rewrite lookup_insert_eq|]. split.
  - intros y Hy. simpl. rewrite lookup_insert_ne; [done|].
    intros E. by rewrite <- E in Hy.
  - split; [apply map_empty_subseteq|by right].
Qed.

Lemma same_dict_agrees v x (σ : state T W) :
  x ∈ dom (heap σ) → run_agrees (Ok ((v, x), σ)) (Ok (v, heap σ !!! x)) x σ.
Proof.
  intros Hx. eexists _, _. split; [reflexivity|].
  split; [done|]. split; [by apply lookup_contents|].
  split; [apply preserved_refl|]. split; [done|by left].
Qed.

Lemma get_eval_agrees_mutual :
  (∀ l : loss T, no_Expectation l → ∀ x (σ : state T W), x ∈ dom (heap σ) →
     run_agrees (_get_eval l x σ) (contents_get_eval l (heap σ !!! x)) x σ)
  ∧ (∀ v : pyval T, slot_no_Expectation v → ∀ x (σ : state T W), x ∈ dom (heap σ) →
     run_agrees (call_get_eval v x σ) (contents_call_get_eval v (heap σ !!! x)) x σ
     ∧ run_agrees (operand_get_eval v x σ) (contents_operand_get_eval v (heap σ !!! x)) x σ).
Proof.
  apply loss_pyval_mutind.
  - (* ValueLoss *)
    intros v _ x σ Hx. by apply same_dict_agrees.
  - (* Parameter *)
    intros name _ x σ Hx. simpl. rewrite bind_run. unfold read.
    destruct ((heap σ !!! x) !! name) as [v|]; [|done].
    by apply same_dict_agrees.
  - (* LossOperator *)
    intros cls iv s1 IH1 s2 IH2 [Hn1 Hn2] x σ Hx.
    rewrite get_eval_LossOperator. simpl.
    destruct (IH1 Hn1 x σ Hx) as [_ A1].
    destruct (contents_operand_get_eval s1 (heap σ !!! x)) as [[v1 d1]|e] eqn:E1;
      simpl in *; [|by rewrite A1].
    destruct A1 as (x1 & σ1 & -> & Hw1 & Hd1 & Hp1 & Hs1 & Hx1).
    assert (Hx' : x ∈ dom (heap σ1)) by by eapply preserved_dom.
    assert (Hc : heap σ1 !!! x = heap σ !!! x) by by apply preserved_contents.
    destruct (IH2 Hn2 x σ1 Hx') as [_ A2]. rewrite Hc in A2.
    destruct (contents_operand_get_eval s2 (heap σ !!! x)) as [[v2 d2]|e] eqn:E2;
      simpl in *; [|by rewrite A2].
    destruct A2 as (x2 & σ2 & -> & Hw2 & Hd2 & Hp2 & Hs2 & Hx2).
    rewrite Hc in Hs2.
    destruct (binary_apply cls v1 v2) as [v|]; simpl; [|done].
    assert (Hd1' : heap σ2 !!! x1 = d1).
    { rewrite lookup_total_alt, Hp2, Hd1; [done|]. by apply elem_of_dom. }
    assert (Hd2' : heap σ2 !!! x2 = d2) by by rewrite lookup_total_alt, Hd2.
    eexists _, _. split; [reflexivity|]. unfold updated. simpl.
    rewrite Hd1', Hd2'.
    split; [congruence|]. split; [by rewrite lookup_insert_eq|]. split; [|split; [|done]].
    + intros y Hy. simpl. destruct (decide (x1 = y)) as [->|Hne].
      * destruct Hx1 as [->|]; [|done].
        rewrite lookup_insert_eq, (lookup_contents σ x) by done. f_equal.
        assert (d1 = heap σ !!! x) as ->.
        { rewrite <- Hc. rewrite lookup_total_alt, Hd1. done. }
        by apply map_subseteq_union.
      * rewrite lookup_insert_ne by done.
        by apply (preserved_trans σ σ1 σ2).
    + by apply map_union_least.
  - (* LossSelfOperator *)
    intros cls iv s1 IH1 Hn1 x σ Hx.
    rewrite get_eval_LossSelfOperator. simpl.
    destruct (IH1 Hn1 x σ Hx) as [A1 _].
    destruct (contents_call_get_eval s1 (heap σ !!! x)) as [[v1 d1]|e] eqn:E1;
      simpl in *; [|by rewrite A1].
    destruct A1 as (x1 & σ1 & -> & Hw1 & Hd1 & Hp1 & Hs1 & Hx1).
    destruct (unary_apply cls v1) as [v|]; simpl; [|done].
    by eexists _, _.
  - (* SetLoss *)
    intros iv inner IH Hn x σ Hx. by apply IH.
  - (* Expectation *)
    intros p f _ iv sh [].
  - (* VLoss *)
    intros l IH Hn x σ Hx. split; by apply IH.
  - intros n _ x σ Hx. by split.
  - intros _ x σ Hx. split; [done|]. apply absent_operand_agrees.
  - intros s _ x σ Hx. by split.
  - intros c _ x σ Hx. by split.
Qed.

Lemma get_eval_agrees (l : loss T) x (σ : state T W) :
  no_Expectation l → x ∈ dom (heap σ) →
  run_agrees (_get_eval l x σ) (contents_get_eval l (heap σ !!! x)) x σ.
Proof. intros. by apply get_eval_agrees_mutual. Qed.

Lemma run_agrees_outcome r c x (σ : state T W) :
  run_agrees r c x σ → outcome r = c.
Proof.
  destruct c as [[v d]|e]; simpl.
  - intros (x' & σ' & -> & _ & Hd & _). simpl. by rewrite lookup_total_alt, Hd.
  - by intros ->.
Qed.

Lemma eval_agrees (l : loss T) x (σ : state T W) :
  no_Expectation l → x ∈ dom (heap σ) →
  run_agrees (eval l x σ) (contents_eval l (heap σ !!! x)) x σ.
Proof.
  intros Hn Hx. rewrite eval_run. unfold contents_eval.
  case_bool_decide; [by apply get_eval_agrees|done].
Qed.

(** The exceptions of [_get_eval] on such a tree; the validation error is
    none of them. *)
Lemma get_eval_raises_mutual :
  (∀ l : loss T, no_Expectation l → ∀ x (σ : state T W) e,
     _get_eval l x σ = Raise e → evaluation_error e)
  ∧ (∀ v : pyval T, slot_no_Expectation v → ∀ x (σ : state T W) e,
     (call_get_eval v x σ = Raise e → evaluation_error e)
     ∧ (operand_get_eval v x σ = Raise e → evaluation_error e)).
Proof.
  apply loss_pyval_mutind.
  - intros v _ x σ e. done.
  - intros name _ x σ e. simpl. rewrite bind_run. unfold read.
    destruct ((heap σ !!! x) !! name); [done|]. by intros [= <-].
  - intros cls iv s1 IH1 s2 IH2 [Hn1 Hn2] x σ e.
    rewrite get_eval_LossOperator.
    destruct (operand_get_eval s1 x σ) as [[[v1 x1] σ1]|e1] eqn:E1.
    2: { intros [= Ee]; subst. eapply (proj2 (IH1 Hn1 _ _ _)); eassumption. }
    destruct (operand_get_eval s2 x σ1) as [[[v2 x2] σ2]|e2] eqn:E2.
    2: { intros [= Ee]; subst. eapply (proj2 (IH2 Hn2 _ _ _)); eassumption. }
    destruct (binary_apply cls v1 v2); [done|]. by intros [= <-].
  - intros cls iv s1 IH1 Hn1 x σ e.
    rewrite get_eval_LossSelfOperator.
    destruct (call_get_eval s1 x σ) as [[[v1 x1] σ1]|e1] eqn:E1.
    2: { intros [= Ee]; subst. eapply (proj1 (IH1 Hn1 _ _ _)); eassumption. }
    destruct (unary_apply cls v1); [done|]. by intros [= <-].
  - intros iv inner IH Hn x σ e. by apply IH.
  - intros p f _ iv sh [].
  - intros l IH Hn x σ e. split; by apply IH.
  - intros n _ x σ e. split; by intros [= <-].
  - intros _ x σ e. split; [by intros [= <-]|done].
  - intros s _ x σ e. split; by intros [= <-].
  - intros c _ x σ e. split; by intros [= <-].
Qed.

(** C9.  For a tree with no [Expectation] node, what a call of [eval]
    returns (the value and the contents of the dictionary returned, or the
    exception) is settled by the tree and the contents of the environment:
    two calls on environments with equal contents agree, whatever the rest of
    the store and the sampler's state.  The call leaves the environment and
    the sampler's state as they were, so a second call on the same
    environment returns what the first did. *)
Theorem eval_deterministic (l : loss T) x1 (σ1 : state T W) x2 (σ2 : state T W) :
  no_Expectation l →
  x1 ∈ dom (heap σ1) → x2 ∈ dom (heap σ2) →
  heap σ1 !!! x1 = heap σ2 !!! x2 →
  outcome (eval l x1 σ1) = outcome (eval l x2 σ2)
  ∧ ∀ r σ1', eval l x1 σ1 = Ok (r, σ1') →
      heap σ1' !!! x1 = heap σ1 !!! x1
      ∧ world σ1' = world σ1
      ∧ outcome (eval l x1 σ1') = outcome (eval l x1 σ1).
Proof.
  intros Hn Hx1 Hx2 Hc.
  pose proof (eval_agrees l x1 σ1 Hn Hx1) as A1.
  pose proof (eval_agrees l x2 σ2 Hn Hx2) as A2.
  split.
  - rewrite (run_agrees_outcome _ _ _ _ A1), (run_agrees_outcome _ _ _ _ A2).
    by rewrite Hc.
  - intros r σ1' Hr. rewrite Hr in A1.
    destruct (contents_eval l (heap σ1 !!! x1)) as [[v d]|e] eqn:E; simpl in A1; [|done].
    destruct A1 as (x' & σ' & [= -> ->] & Hw & Hd & Hp & _).
    assert (Hx1' : x1 ∈ dom (heap σ')) by by eapply preserved_dom.
    assert (Hc1 : heap σ' !!! x1 = heap σ1 !!! x1) by by apply preserved_contents.
    split; [done|]. split; [done|].
    rewrite (run_agrees_outcome _ _ _ _ (eval_agrees l x1 σ' Hn Hx1')).
    rewrite Hr. simpl. rewrite Hc1, E. by rewrite lookup_total_alt, Hd.
Qed.

End NoExpectation.

(** ** Evaluation of any tree *)

Section AnyTree.
Context {T W : Type} `{Tensor T} `{Sampler T W}.

Lemma updated_keeps_keys (σ : state T W) x1 x2 y :
  dom (heap σ !!! y) ⊆ dom (heap (updated σ x1 x2) !!! y).
Proof.
  unfold updated. simpl. destruct (decide (x1 = y)) as [->|Hne].
  - rewrite lookup_total_insert_eq, dom_union. set_solver.
  - by rewrite lookup_total_insert_ne.
Qed.

Lemma new_dict_keeps_keys (σ : state T W) l σ' y :
  new_dict σ = Ok (l, σ') → dom (heap σ !!! y) ⊆ dom (heap σ' !!! y).
Proof.
  unfold new_dict. intros [= <- <-]. simpl.
  destruct (decide (fresh (dom (heap σ)) = y)) as [<-|Hne].
  - rewrite lookup_total_insert_eq.
    rewrite lookup_total_alt, (not_elem_of_dom_1 (heap σ)) by apply is_fresh.
    done.
  - by rewrite lookup_total_insert_ne.
Qed.

(** No call removes a key from a dictionary, when the sampler removes none. *)
Lemma get_eval_keeps_keys_mutual `{!SamplerKeepsKeys T W} :
  (∀ l : loss T, ∀ x (σ : state T W) r σ',
     _get_eval l x σ = Ok (r, σ') → ∀ y, dom (heap σ !!! y) ⊆ dom (heap σ' !!! y))
  ∧ (∀ v : pyval T, ∀ x (σ : state T W) r σ',
     (call_get_eval v x σ = Ok (r, σ') → ∀ y, dom (heap σ !!! y) ⊆ dom (heap σ' !!! y))
     ∧ (operand_get_eval v x σ = Ok (r, σ') → ∀ y, dom (heap σ !!! y) ⊆ dom (heap σ' !!! y))).
Proof.
  apply loss_pyval_mutind.
  - intros v x σ r σ'. by intros [= <- <-].
  - intros name x σ r σ'. simpl. rewrite bind_run. unfold read.
    destruct ((heap σ !!! x) !! name); [|done]. by intros [= <- <-].
  - intros cls iv s1 IH1 s2 IH2 x σ r σ'.
    rewrite get_eval_LossOperator.
    destruct (operand_get_eval s1 x σ) as [[[v1 x1] σ1]|e1] eqn:E1; [|done].
    destruct (operand_get_eval s2 x σ1) as [[[v2 x2] σ2]|e2] eqn:E2; [|done].
    destruct (binary_apply cls v1 v2); [|done]. intros [= <- <-] y.
    etrans; [eapply (proj2 (IH1 _ _ _ _)), E1|].
    etrans; [eapply (proj2 (IH2 _ _ _ _)), E2|].
    apply updated_keeps_keys.
  - intros cls iv s1 IH1 x σ r σ'.
    rewrite get_eval_LossSelfOperator.
    destruct (call_get_eval s1 x σ) as [[[v1 x1] σ1]|e1] eqn:E1; [|done].
    destruct (unary_apply cls v1); [|done]. intros [= <- <-] y.
    eapply (proj1 (IH1 _ _ _ _)), E1.
  - intros iv inner IH x σ r σ'. apply IH.
  - intros p f IH iv sh x σ r σ'.
    rewrite get_eval_Expectation.
    destruct (sample p x sh σ) as [[sd σ1]|] eqn:Es; [|done].
    rewrite eval_run. case_bool_decide; [|done].
    destruct (_get_eval f sd σ1) as [[[v lsd] σ2]|e] eqn:Ef; [|done].
    destruct (t_view_mean (numel sh) v); [|done]. intros [= <- <-] y.
    etrans; [eapply sample_keeps_keys, Es|].
    etrans; [eapply IH, Ef|].
    apply updated_keeps_keys.
  - intros l IH x σ r σ'. split; apply IH.
  - intros n x σ r σ'. by split.
  - intros x σ r σ'. split; [done|]. simpl. rewrite bind_run.
    destruct (new_dict σ) as [[l σ1]|] eqn:En; [|done].
    intros [= <- <-] y. by eapply new_dict_keeps_keys.
  - intros s x σ r σ'. by split.
  - intros c x σ r σ'. by split.
Qed.

(** X13.  A call of [eval] that returns has removed no key from any
    dictionary of the store, the caller's included, whatever the tree (the
    sampler removing none). *)
Lemma eval_keeps_keys `{!SamplerKeepsKeys T W} (l : loss T) x (σ : state T W) r σ' y :
  eval l x σ = Ok (r, σ') → dom (heap σ !!! y) ⊆ dom (heap σ' !!! y).
Proof.
  rewrite eval_run. case_bool_decide; [|done].
  intros Hr. by apply (proj1 get_eval_keeps_keys_mutual l x σ r σ').
Qed.

(** [eval] of an operator node over two losses, and of a unary node over a
    loss, in terms of [_get_eval] of the operands. *)
Lemma eval_value_run_get_eval (l : loss T) x (σ : state T W) :
  list_to_set (input_var l) ⊆ dom (heap σ !!! x) →
  eval_value l x σ
  = match _get_eval l x σ with
    | Ok ((v, _), σ') => Ok (v, σ')
    | Raise e => Raise e
    end.
Proof.
  intros Hs. unfold eval_value. rewrite bind_run, eval_superset by done.
  by destruct (_get_eval l x σ) as [[[v r] σ']|e].
Qed.

Lemma LossOperator_eval_value `{!SamplerKeepsKeys T W} cls iv (a b : loss T) x
    (σ : state T W) :
  list_to_set iv ⊆ dom (heap σ !!! x) →
  list_to_set (input_var a) ⊆ dom (heap σ !!! x) →
  list_to_set (input_var b) ⊆ dom (heap σ !!! x) →
  value_of (eval_value (LossOperator cls iv (VLoss a) (VLoss b)) x σ)
  = value_of (eval_both (binary_apply cls) a b x σ).
Proof.
  intros Hiv Ha Hb. unfold eval_both.
  rewrite eval_value_run_get_eval by done.
  rewrite get_eval_LossOperator. simpl.
  rewrite bind_run, (eval_value_run_get_eval a) by done.
  destruct (_get_eval a x σ) as [[[v1 x1] σ1]|e1] eqn:Ea; [|done].
  assert (Hb1 : list_to_set (input_var b) ⊆ dom (heap σ1 !!! x)).
  { etrans; [exact Hb|]. by apply (proj1 get_eval_keeps_keys_mutual a x σ (v1, x1) σ1). }
  rewrite bind_run, (eval_value_run_get_eval b) by done.
  destruct (_get_eval b x σ1) as [[[v2 x2] σ2]|e2] eqn:Eb; [|done].
  unfold lift. by destruct (binary_apply cls v1 v2).
Qed.

Lemma LossSelfOperator_eval cls (a : loss T) x (σ : state T W) :
  eval (LossSelfOperator cls (input_var a) (VLoss a)) x σ
  = match eval a x σ with
    | Raise e => Raise e
    | Ok ((v, x1), σ1) =>
        match unary_apply cls v with
        | None => Raise EngineError
        | Some v' => Ok ((v', x1), σ1)
        end
    end.
Proof.
  rewrite (eval_run (LossSelfOperator cls (input_var a) (VLoss a))), (eval_run a).
  change (input_var (LossSelfOperator cls (input_var a) (VLoss a))) with (input_var a).
  case_bool_decide; [|done]. by rewrite get_eval_LossSelfOperator.
Qed.

Lemma LossSelfOperator_eval_value cls (a : loss T) x (σ : state T W) :
  value_of (eval_value (LossSelfOperator cls (input_var a) (VLoss a)) x σ)
  = value_of (eval_one (unary_apply cls) a x σ).
Proof.
  unfold eval_one, eval_value. rewrite !bind_run, LossSelfOperator_eval.
  destruct (eval a x σ) as [[[v x1] σ1]|e]; [|done]. simpl.
  unfold lift. by destruct (unary_apply cls v).
Qed.

(** The sequenced form of the arithmetic laws, for every pair of operands.
    Let the environment have every name of [a.input_var] and of
    [b.input_var].  Then [(a + b).eval(env)] returns what the two calls
    [a.eval(env)], [b.eval(env)], made in this order, the second from the
    state the first left, return added together, and raises what they or
    the addition raise; likewise for [-], [*] and [/].  The sampler is
    assumed to remove no key from a dictionary. *)
Theorem arithmetic_laws `{!SamplerKeepsKeys T W} `{SetIter} (a b : loss T) x
    (σ : state T W) :
  list_to_set (input_var a) ⊆ dom (heap σ !!! x) →
  list_to_set (input_var b) ⊆ dom (heap σ !!! x) →
  (∃ n, Loss_add a (VLoss b) = Ok n
     ∧ value_of (eval_value n x σ) = value_of (eval_both t_add a b x σ))
  ∧ (∃ n, Loss_sub a (VLoss b) = Ok n
     ∧ value_of (eval_value n x σ) = value_of (eval_both t_sub a b x σ))
  ∧ (∃ n, Loss_mul a (VLoss b) = Ok n
     ∧ value_of (eval_value n x σ) = value_of (eval_both t_mul a b x σ))
  ∧ (∃ n, Loss_truediv a (VLoss b) = Ok n
     ∧ value_of (eval_value n x σ) = value_of (eval_both t_truediv a b x σ))
  ∧ (∃ n, Loss_neg a = Ok n
     ∧ value_of (eval_value n x σ) = value_of (eval_one t_neg a x σ)).
Proof.
  intros Ha Hb.
  assert (Hiv : list_to_set (first_occurrences (input_var a ++ input_var b))
                ⊆ dom (heap σ !!! x)).
  { intros name Hn.
    rewrite elem_of_list_to_set, elem_of_first_occurrences, elem_of_app in Hn.
    destruct Hn as [Hn|Hn]; [apply Ha|apply Hb]; by apply elem_of_list_to_set. }
  unfold Loss_add, Loss_sub, Loss_mul, Loss_truediv, Loss_neg.
  split; [|split; [|split; [|split]]].
  - eexists. split; [apply LossOperator_init_losses|].
    by apply (LossOperator_eval_value AddLoss _ a b).
  - eexists. split; [apply LossOperator_init_losses|].
    by apply (LossOperator_eval_value SubLoss _ a b).
  - eexists. split; [apply LossOperator_init_losses|].
    by apply (LossOperator_eval_value MulLoss _ a b).
  - eexists. split; [apply LossOperator_init_losses|].
    by apply (LossOperator_eval_value DivLoss _ a b).
  - eexists. split; [apply LossSelfOperator_init_loss|].
    apply (LossSelfOperator_eval_value NegLoss).
Qed.

(** In a well-scoped tree, with a sampler that returns all and removes no
    key, no nested check fails once the names of the root are present. *)
Lemma get_eval_no_validation_error_mutual
    `{!SamplerKeepsKeys T W} `{!SamplerReturnsAll T W} :
  (∀ l : loss T, well_scoped l → ∀ x (σ : state T W) e,
     list_to_set (input_var l) ⊆ dom (heap σ !!! x) →
     _get_eval l x σ = Raise e → ¬ validation_error e)
  ∧ (∀ v : pyval T, ∀ iv, slot_well_scoped iv v → ∀ x (σ : state T W) e,
     list_to_set iv ⊆ dom (heap σ !!! x) →
     (call_get_eval v x σ = Raise e → ¬ validation_error e)
     ∧ (operand_get_eval v x σ = Raise e → ¬ validation_error e)).
Proof.
  apply loss_pyval_mutind.
  - intros v _ x σ e _. done.
  - intros name _ x σ e _. simpl. rewrite bind_run. unfold read.
    destruct ((heap σ !!! x) !! name); [done|]. intros [= <-]. by intros [].
  - intros cls iv s1 IH1 s2 IH2 [Hw1 Hw2] x σ e Hiv.
    rewrite get_eval_LossOperator.
    destruct (operand_get_eval s1 x σ) as [[[v1 x1] σ1]|e1] eqn:E1.
    2: { intros [= Ee]; subst. eapply (proj2 (IH1 iv Hw1 x σ _ Hiv)), E1. }
    assert (Hiv1 : list_to_set iv ⊆ dom (heap σ1 !!! x)).
    { etrans; [exact Hiv|].
      eapply (proj2 (proj2 get_eval_keeps_keys_mutual s1 x σ (v1, x1) σ1)), E1. }
    destruct (operand_get_eval s2 x σ1) as [[[v2 x2] σ2]|e2] eqn:E2.
    2: { intros [= Ee]; subst. eapply (proj2 (IH2 iv Hw2 x σ1 _ Hiv1)), E2. }
    destruct (binary_apply cls v1 v2); [done|]. intros [= <-]. by intros [].
  - intros cls iv s1 IH1 Hw1 x σ e Hiv.
    rewrite get_eval_LossSelfOperator.
    destruct (call_get_eval s1 x σ) as [[[v1 x1] σ1]|e1] eqn:E1.
    2: { intros [= Ee]; subst. eapply (proj1 (IH1 iv Hw1 x σ _ Hiv)), E1. }
    destruct (unary_apply cls v1); [done|]. intros [= <-]. by intros [].
  - intros iv inner IH [Hw Hsub] x σ e Hiv. apply IH; [done|].
    intros name Hn. rewrite elem_of_list_to_set in Hn.
    apply Hiv. rewrite elem_of_list_to_set. simpl. by apply Hsub.
  - intros p f IH iv sh [Hw Hcov] x σ e Hiv.
    rewrite get_eval_Expectation.
    destruct (sample p x sh σ) as [[sd σ1]|] eqn:Es.
    2: { intros [= <-]. by intros []. }
    assert (Hf : list_to_set (input_var f) ⊆ dom (heap σ1 !!! sd)).
    { intros name Hn. rewrite elem_of_list_to_set in Hn.
      apply (sample_returns_all _ _ _ _ _ _ Es).
      destruct (decide (name ∈ d_var p)) as [Hv|Hv].
      - apply elem_of_union_r. by rewrite elem_of_list_to_set.
      - apply elem_of_union_l, Hiv. rewrite elem_of_list_to_set. simpl.
        by apply Hcov. }
    rewrite eval_superset by done.
    destruct (_get_eval f sd σ1) as [[[v lsd] σ2]|e2] eqn:Ef.
    2: { intros [= Ee]; subst. by eapply IH. }
    destruct (t_view_mean (numel sh) v); [done|]. intros [= <-]. by intros [].
  - intros l IH iv [Hw Hsub] x σ e Hiv.
    assert (Hl : list_to_set (input_var l) ⊆ dom (heap σ !!! x)).
    { intros name Hn. rewrite elem_of_list_to_set in Hn.
      apply Hiv. rewrite elem_of_list_to_set. by apply Hsub. }
    split; simpl; intros He; by eapply IH.
  - intros n iv _ x σ e _. split; intros [= <-]; by intros [].
  - intros iv _ x σ e _. split; [intros [= <-]; by intros []|done].
  - intros s0 iv _ x σ e _. split; intros [= <-]; by intros [].
  - intros c iv _ x σ e _. split; intros [= <-]; by intros [].
Qed.

(** C3 (amended).  With a name of [l.input_var] missing from the keys of the
    environment, [l.eval(env)] raises the validation error.  With none
    missing, the entry check passes and the node's [_get_eval] runs.  For a
    tree with no [Expectation] node that run never raises the validation
    error: such a tree raises it exactly when a name is missing.  The same
    holds for a well-scoped tree (every [Expectation] node's [input_var] has
    the names of its integrand that [p] does not sample, as the default
    [input_var] has) when [p.sample] returns the entries given and those of
    [p.var] and removes no key. *)
Theorem eval_validation (l : loss T) x (σ : state T W) :
  ((∃ name, name ∈ input_var l ∧ name ∉ dom (heap σ !!! x)) →
     eval l x σ = Raise (InputKeysError (dom (heap σ !!! x))))
  ∧ (list_to_set (input_var l) ⊆ dom (heap σ !!! x) → eval l x σ = _get_eval l x σ)
  ∧ (no_Expectation l →
     ((∃ keys, eval l x σ = Raise (InputKeysError keys))
      ↔ (∃ name, name ∈ input_var l ∧ name ∉ dom (heap σ !!! x))))
  ∧ (SamplerKeepsKeys T W → SamplerReturnsAll T W → well_scoped l →
     ((∃ keys, eval l x σ = Raise (InputKeysError keys))
      ↔ (∃ name, name ∈ input_var l ∧ name ∉ dom (heap σ !!! x)))).
Proof.
  split; [apply eval_missing_name|]. split; [apply eval_superset|]. split.
  - intros Hn. split.
    + intros [keys Hk]. apply missing_name_iff. intros Hs.
      rewrite eval_superset in Hk by done.
      by apply get_eval_raises_mutual in Hk.
    + intros Hm. eexists. by apply eval_missing_name.
  - intros HK HR Hw. split.
    + intros [keys Hk]. apply missing_name_iff. intros Hs.
      rewrite eval_superset in Hk by done.
      by apply (proj1 get_eval_no_validation_error_mutual l Hw x σ _ Hs Hk).
    + intros Hm. eexists. by apply eval_missing_name.
Qed.

(** [Expectation(p, f).eval] step by step: the entry check; [p.sample] on
    the dictionary given; [f.eval] on the dictionary sampled; the dictionary
    [f] returned written into the sampled one; the value viewed as
    [numel sample_shape] rows and averaged over them. *)
Lemma Expectation_eval_steps p (f : loss T) iv sh x (σ : state T W) :
  eval (Expectation p f iv sh) x σ
  = if bool_decide (list_to_set iv ⊆ dom (heap σ !!! x))
    then match sample p x sh σ with
         | None => Raise SampleError
         | Some (samples_dict, σ1) =>
             match eval f samples_dict σ1 with
             | Raise e => Raise e
             | Ok ((v, loss_sample_dict), σ2) =>
                 match t_view_mean (numel sh) v with
                 | None => Raise EngineError
                 | Some v' =>
                     Ok ((v', samples_dict), updated σ2 samples_dict loss_sample_dict)
                 end
             end
         end
    else Raise (InputKeysError (dom (heap σ !!! x))).
Proof.
  rewrite (eval_run (Expectation p f iv sh)).
  change (input_var (Expectation p f iv sh)) with iv.
  by rewrite get_eval_Expectation.
Qed.

(** X4.  The four unary nodes over a loss [a]: [a.eval] on the same dictionary,
    then the operation on the value. *)
Lemma unary_operators_eval (a : loss T) x (σ : state T W) :
  let then_apply (op : T → option T) :=
    match eval a x σ with
    | Raise e => Raise e
    | Ok ((v, x1), σ1) =>
        match op v with
        | None => Raise EngineError
        | Some v' => Ok ((v', x1), σ1)
        end
    end in
  (∃ n, Loss_neg a = Ok n ∧ eval n x σ = then_apply t_neg)
  ∧ (∃ n, Loss_abs a = Ok n ∧ eval n x σ = then_apply t_abs)
  ∧ (∃ n, Loss_mean a = Ok n ∧ eval n x σ = then_apply t_mean)
  ∧ (∃ n, Loss_sum a = Ok n ∧ eval n x σ = then_apply t_sum).
Proof.
  repeat split; (eexists; split; [apply LossSelfOperator_init_loss|]).
  - exact (LossSelfOperator_eval NegLoss a x σ).
  - exact (LossSelfOperator_eval AbsLoss a x σ).
  - exact (LossSelfOperator_eval BatchMean a x σ).
  - exact (LossSelfOperator_eval BatchSum a x σ).
Qed.

(** C10.  [Expectation._get_eval] evaluates the integrand [f] through
    [eval], on the dictionary that [p.sample] returned.  So when the caller's
    environment has every name of the node's own [input_var] and [p.sample]
    returns a dictionary that lacks a name of [f.input_var], the call raises
    the validation error, listing the keys of the dictionary sampled. *)
Theorem Expectation_validates_integrand p (f : loss T) iv sh x (σ : state T W)
    samples_dict σ1 :
  list_to_set iv ⊆ dom (heap σ !!! x) →
  sample p x sh σ = Some (samples_dict, σ1) →
  (∃ name, name ∈ input_var f ∧ name ∉ dom (heap σ1 !!! samples_dict)) →
  eval (Expectation p f iv sh) x σ
  = Raise (InputKeysError (dom (heap σ1 !!! samples_dict))).
Proof.
  intros Hiv Hs Hm. rewrite eval_superset by done.
  rewrite get_eval_Expectation, Hs. by rewrite eval_missing_name.
Qed.

End AnyTree.

(** ** The arithmetic laws on one environment *)

Section Independent.
Context {T W : Type} `{Tensor T} `{Sampler T W} `{SetIter}.

(** X3.  For operands with no [Expectation] node nothing is written to the
    environment, and the law holds for calls made independently, each from
    the state [σ]. *)
Lemma arithmetic_laws_no_Expectation cls (a b : loss T) x (σ : state T W) :
  no_Expectation a → no_Expectation b → x ∈ dom (heap σ) →
  list_to_set (input_var a) ⊆ dom (heap σ !!! x) →
  list_to_set (input_var b) ⊆ dom (heap σ !!! x) →
  ∃ n, LossOperator_init cls (VLoss a) (VLoss b) = Ok n
     ∧ value_of (eval_value n x σ)
       = (v1 ← value_of (eval_value a x σ);
          v2 ← value_of (eval_value b x σ);
          of_option EngineError (binary_apply cls v1 v2)).
Proof.
  intros Hna Hnb Hx Ha Hb.
  eexists. split; [apply LossOperator_init_losses|].
  rewrite !eval_value_run.
  rewrite (run_agrees_outcome _ _ _ _ (eval_agrees a x σ Hna Hx)).
  rewrite (run_agrees_outcome _ _ _ _ (eval_agrees b x σ Hnb Hx)).
  erewrite run_agrees_outcome; [|by apply eval_agrees].
  unfold contents_eval.
  rewrite (bool_decide_eq_true_2 _ Ha), (bool_decide_eq_true_2 _ Hb).
  rewrite bool_decide_eq_true_2.
  2: { intros name Hn. rewrite elem_of_list_to_set in Hn. simpl in Hn.
       rewrite elem_of_first_occurrences, elem_of_app in Hn.
       destruct Hn as [Hn|Hn]; [apply Ha|apply Hb]; by apply elem_of_list_to_set. }
  simpl.
  destruct (contents_get_eval a (heap σ !!! x)) as [[v1 d1]|e1]; [|done]. simpl.
  destruct (contents_get_eval b (heap σ !!! x)) as [[v2 d2]|e2]; [|done]. simpl.
  by destruct (binary_apply cls v1 v2).
Qed.



End Independent.

(** With an [Expectation] among the operands the order matters.  Take
    [a = w + E_p[z]], [b = z] and the environment [{"w": 10, "z": 100}]; the
    sampler draws [7] for [z].  [a]'s evaluation writes the sampled entry
    into the caller's dictionary ([x1.update(x2)], where [x1] is that very
    dictionary), so inside [a + b] the operand [b] reads [7]: the value is
    [(10 + 7) + 7].  A call of [b.eval] on the environment as it was first
    returns [100]. *)
Example operand_reads_sampled_entry :
  let env : gmap string qvalue :=
    {[ "w" := QTensor [1] [10%Q]; "z" := QTensor [1] [100%Q] ]} in
  let σ := {| heap := {[ 1%positive := env ]}; world := 7 |} in
  let a := LossOperator AddLoss ["w"] (VLoss (Parameter' "w")) (VLoss expected_z) in
  (n ← Loss_add a (VLoss z_loss); value_of (eval_value n 1%positive σ))
    = Ok (QTensor [1] [24%Q])
  ∧ value_of (eval_both t_add a z_loss 1%positive σ) = Ok (QTensor [1] [24%Q])
  ∧ value_of (eval_value a 1%positive σ) = Ok (QTensor [1] [17%Q])
  ∧ value_of (eval_value z_loss 1%positive σ) = Ok (QTensor [1] [100%Q]).
Proof. repeat split; by vm_compute. Qed.

(** ** [SetLoss] *)

Section SetLossFacts.
Context {S T W : Type} `{Tensor T} `{Sampler T W} `{Sympy S T}.

(** C8.  [SetLoss(l)] has the [input_var] of [l]; from every state and on
    every dictionary [SetLoss(l).eval] returns or raises what [l.eval] does
    (the value, the dictionary returned and the state left are the same); and
    its symbol and its text are those of [l]. *)
Theorem SetLoss_transparent (l : loss T) :
  input_var (SetLoss_init l) = input_var l
  ∧ (∀ x (σ : state T W), eval (SetLoss_init l) x σ = eval l x σ)
  ∧ (∀ x (σ : state T W), eval_value (SetLoss_init l) x σ = eval_value l x σ)
  ∧ _symbol (S:=S) (SetLoss_init l) = _symbol l
  ∧ loss_text (S:=S) (SetLoss_init l) = loss_text l.
Proof. by repeat split. Qed.

End SetLossFacts.

(** ** [BatchMean] and [BatchSum] on rational tensors *)

Section Batch.
Context {W : Type} `{Sampler qvalue W}.

Lemma rows_one (d : list Q) : rows (length d) 1 d = (λ q, [q]) <$> d.
Proof. induction d as [|q d IH]; [done|]. simpl. by rewrite drop_0, IH. Qed.

Lemma column_totals_one (d : list Q) :
  column_totals 1 ((λ q, [q]) <$> d) = [q_total d].
Proof.
  unfold column_totals, q_total.
  assert (E : foldr (zip_with Qplus) (replicate 1 0%Q) ((λ q, [q]) <$> d)
              = [foldr Qplus 0%Q d]).
  { induction d as [|q d IH]; [done|]. rewrite fmap_cons. cbn [foldr].
    by rewrite IH. }
  by rewrite E.
Qed.

(** On a one-dimensional tensor, the reduction over every entry is the
    reduction over the leading dimension. *)
Lemma q_reduce_one_dimension (d : list Q) :
  q_mean (QTensor [length d] d) = q_mean_dim0 (QTensor [length d] d)
  ∧ q_sum (QTensor [length d] d) = q_sum_dim0 (QTensor [length d] d).
Proof.
  unfold q_mean, q_mean_dim0, q_sum, q_sum_dim0. cbv zeta.
  change (foldr Nat.mul 1 []) with 1.
  rewrite rows_one, column_totals_one. split; [|done]. simpl.
  by destruct (q_div (q_total d) (inject_Z (Z.of_nat (length d)))).
Qed.

(** On a tensor with one entry, [mean()] and [sum()] agree. *)
Lemma q_mean_sum_one_entry (s : list nat) (q : Q) :
  q_mean (QTensor s [q]) = q_sum (QTensor s [q]).
Proof.
  unfold q_mean, q_sum, q_div. simpl. do 3 f_equal.
  unfold q_total. simpl. apply Qred_complete.
  rewrite Qred_correct. field.
Qed.

(** C7 (amended).  [BatchMean(loss).eval(env)] is [loss.eval(env)] with
    [.mean()] applied to the value, and [BatchSum(loss).eval(env)] is it with
    [.sum()] applied: the mean and the sum over every entry of the value.
    For a one-dimensional value these are the mean and the sum over the
    leading dimension.  For a value with exactly one entry the two results
    are the same. *)
Theorem BatchMean_BatchSum_eval (l : loss qvalue) x (σ : state qvalue W) :
  (∃ n, Loss_mean l = Ok n
     ∧ eval n x σ
       = match eval l x σ with
         | Raise e => Raise e
         | Ok ((v, x1), σ1) =>
             match q_mean v with
             | None => Raise EngineError
             | Some v' => Ok ((v', x1), σ1)
             end
         end)
  ∧ (∃ n, Loss_sum l = Ok n
     ∧ eval n x σ
       = match eval l x σ with
         | Raise e => Raise e
         | Ok ((v, x1), σ1) =>
             match q_sum v with
             | None => Raise EngineError
             | Some v' => Ok ((v', x1), σ1)
             end
         end)
  ∧ (∀ d, q_mean (QTensor [length d] d) = q_mean_dim0 (QTensor [length d] d)
          ∧ q_sum (QTensor [length d] d) = q_sum_dim0 (QTensor [length d] d))
  ∧ (∀ s q, q_mean (QTensor s [q]) = q_sum (QTensor s [q])).
Proof.
  split; [|split; [|split]].
  - eexists. split; [apply LossSelfOperator_init_loss|].
    exact (LossSelfOperator_eval BatchMean l x σ).
  - eexists. split; [apply LossSelfOperator_init_loss|].
    exact (LossSelfOperator_eval BatchSum l x σ).
  - apply q_reduce_one_dimension.
  - apply q_mean_sum_one_entry.
Qed.

End Batch.

(** ** [Expectation]'s default [input_var] is in set order *)

Lemma iterating_as_NoDup (X : gset string) (l : list string) :
  iteration_of X l → ∀ X', NoDup (iterating_as X l X').
Proof.
  intros [Hnd _] X'. unfold iterating_as. case_decide; [done|apply NoDup_elements].
Qed.

Lemma iterating_as_elem_of (X : gset string) (l : list string) :
  iteration_of X l → ∀ X' x, x ∈ iterating_as X l X' ↔ x ∈ X'.
Proof.
  intros [_ Hin] X' x. unfold iterating_as.
  case_decide as E; [subst; apply Hin|apply elem_of_elements].
Qed.

(** the order in which [X] is iterated as [l] *)
Definition iterating (X : gset string) (l : list string) (Hl : iteration_of X l)
  : SetIter :=
  {| set_iter := iterating_as X l;
     set_iter_NoDup := iterating_as_NoDup X l Hl;
     elem_of_set_iter := iterating_as_elem_of X l Hl |}.

Lemma iteration_of_a_b :
  iteration_of (list_to_set (d_input_var p_ba)
                ∪ (list_to_set (input_var (ValueLoss (QNum 0))) ∖ list_to_set (d_var p_ba)))
    ["a"; "b"].
Proof.
  split.
  - apply NoDup_cons. split; [|apply NoDup_singleton].
    intros Hin. by apply list_elem_of_singleton in Hin.
  - intros x. simpl. set_solver.
Qed.

(** C6 (what the code does).  [Expectation.__init__] with [input_var] omitted
    hands on the iteration of the set it has computed, as it comes: whatever
    iteration [l] that set has, the node's [input_var] is [l], while under
    the same order the binary constructor returns the list of first
    occurrences.  So with [p.input_var = ["b"; "a"]], [p.var = []] and an
    [f] without names, when the set iterates as ["a"; "b"] the node's
    [input_var] is ["a"; "b"] and the first-occurrence order of the
    children's names is ["b"; "a"]; [AddLoss] of [Parameter("b")] and
    [Parameter("a")] has ["b"; "a"] under that order too.  And the base
    constructor with [p] only copies [p.input_var], a name that is twice in
    it included; a unary node copies the list of its operand. *)
Theorem Expectation_init_set_order :
  (∀ (T : Type) (p : dist) (f : loss T) (sh : list nat) (l : list string),
     iteration_of (list_to_set (d_input_var p)
                   ∪ (list_to_set (input_var f) ∖ list_to_set (d_var p))) l →
     ∃ order : SetIter,
       Expectation_init (H:=order) p f None sh = Ok (Expectation p f l sh)
       ∧ ∀ cls (a b : loss T),
           input_var <$> LossOperator_init (H:=order) cls (VLoss a) (VLoss b)
           = Ok (first_occurrences (input_var a ++ input_var b)))
  ∧ (∃ order : SetIter,
       input_var <$> Expectation_init (H:=order) p_ba (ValueLoss (QNum 0)) None []
       = Ok ["a"; "b"]
       ∧ first_occurrences (d_input_var p_ba ++ input_var (ValueLoss (QNum 0)))
         = ["b"; "a"]
       ∧ input_var <$> LossOperator_init (H:=order) AddLoss
                         (VLoss (Parameter' (T:=qvalue) "b")) (VLoss (Parameter' "a"))
         = Ok ["b"; "a"])
  ∧ (∀ order : SetIter,
       Loss_init (H:=order) p_xx None None = Ok ["x"; "x"]
       ∧ ¬ NoDup ["x"; "x"]
       ∧ ∀ cls (a : loss qvalue), input_var a = ["x"; "x"] →
           input_var <$> LossSelfOperator_init cls (VLoss a) = Ok ["x"; "x"]).
Proof.
  split; [|split].
  - intros T p f sh l Hl. exists (iterating _ l Hl). split.
    + rewrite Expectation_init_default. simpl. unfold iterating_as.
      by rewrite decide_True.
    + intros cls a b. by rewrite LossOperator_init_losses.
  - exists (iterating _ ["a"; "b"] iteration_of_a_b). split; [|split].
    + rewrite Expectation_init_default. by vm_compute.
    + by vm_compute.
    + by rewrite LossOperator_init_losses.
  - intros order. split; [done|]. split.
    + intros Hnd. apply NoDup_cons in Hnd as [Hx _]. apply Hx. by left.
    + intros cls a Ha. rewrite LossSelfOperator_init_loss. simpl. by rewrite Ha.
Qed.

(** X2.  The base constructor: an [input_var] given is kept as it is; with one
    distribution it is [p.input_var]; with two it is the list of first
    occurrences in [p.input_var + q.input_var]. *)
Lemma Loss_init_input_var `{SetIter} (p q : dist) (iv : list string) (o : option dist) :
  Loss_init p o (Some iv) = Ok iv
  ∧ Loss_init p None None = Ok (d_input_var p)
  ∧ Loss_init p (Some q) None = Ok (first_occurrences (d_input_var p ++ d_input_var q)).
Proof.
  split; [done|]. split; [done|]. apply sorted_set_by_index_first_occurrences.
Qed.

(** ** The instances meet the assumptions *)

#[global] Instance counting_sampler_keeps_keys : SamplerKeepsKeys qvalue nat.
Proof.
  intros p x sh σ r σ' Hs y. simpl in Hs. unfold counting_sample in Hs.
  injection Hs as <- <-. simpl.
  destruct (decide (fresh (dom (heap σ)) = y)) as [<-|Hne].
  - rewrite lookup_total_insert_eq.
    rewrite (lookup_total_alt (heap σ)), (not_elem_of_dom_1 (heap σ)) by apply is_fresh.
    set_solver.
  - by rewrite lookup_total_insert_ne.
Qed.

#[global] Instance counting_sampler_returns_all : SamplerReturnsAll qvalue nat.
Proof.
  intros p x sh σ r σ' Hs. simpl in Hs. unfold counting_sample in Hs.
  injection Hs as <- <-. simpl.
  rewrite lookup_total_insert_eq, dom_union, dom_list_to_map_L.
  rewrite <- list_fmap_compose.
  rewrite (list_fmap_ext _ id (d_var p)), list_fmap_id by done.
  set_solver.
Qed.

(** ** The statements at concrete inputs *)

(** C2, counterexample.  [p.input_var = ["x"; "z"]], [p.var = ["z"]],
    [f.input_var = ["z"]]: the node's [input_var] has ["z"], which is not in
    [(p.input_var ∪ f.input_var) − p.var]. *)
Lemma Expectation_init_keeps_sampled_input_name :
  ∃ n, Expectation_init p_z_given_xz z_loss None [] = Ok n
     ∧ "z" ∈ input_var n
     ∧ ¬ (("z" ∈ d_input_var p_z_given_xz ∨ "z" ∈ input_var z_loss)
          ∧ "z" ∉ d_var p_z_given_xz).
Proof.
  eexists. split; [apply Expectation_init_default|]. split.
  - simpl. apply elem_of_elements. set_solver.
  - intros [_ Hz]. apply Hz. simpl. set_solver.
Qed.

(** C3, counterexample.  [x_loss.expectation(p_z, input_var=[])] evaluated on
    an empty environment: no name of the node's [input_var] is missing, and
    the call raises the validation error, for the integrand's ["x"]. *)
Lemma eval_validation_error_without_missing_name :
  Expectation_init p_z x_loss (Some []) [] = Ok expected_x
  ∧ list_to_set (input_var expected_x) ⊆ dom (heap (one_dict ∅) !!! 1%positive)
  ∧ eval expected_x 1%positive (one_dict ∅) = Raise (InputKeysError {["z"]})
  ∧ ¬ ((∃ keys, eval expected_x 1%positive (one_dict ∅) = Raise (InputKeysError keys))
       ↔ (∃ name, name ∈ input_var expected_x
                  ∧ name ∉ dom (heap (one_dict ∅) !!! 1%positive))).
Proof.
  assert (E : eval expected_x 1%positive (one_dict ∅) = Raise (InputKeysError {["z"]})).
  { by vm_compute. }
  split; [done|]. split; [set_solver|]. split; [done|].
  intros [Hi _]. destruct Hi as (name & Hn & _); [by eexists|].
  simpl in Hn. by apply elem_of_nil in Hn.
Qed.

(** C7, counterexample.  The value of [x] has shape [(1, 2)] and entries
    [1, 3].  [BatchMean] gives the number [2], not the mean over the leading
    dimension, which is the vector [1, 3]; and though the leading dimension
    has one element, [BatchSum] gives [4], not what [BatchMean] gives. *)
Lemma BatchMean_reduces_every_dimension :
  ∃ m s, Loss_mean x_loss = Ok m ∧ Loss_sum x_loss = Ok s
    ∧ value_of (eval_value x_loss 1%positive (one_dict {[ "x" := tensor_1x2 ]}))
      = Ok tensor_1x2
    ∧ value_of (eval_value m 1%positive (one_dict {[ "x" := tensor_1x2 ]}))
      = Ok (QTensor [] [2%Q])
    ∧ q_mean_dim0 tensor_1x2 = Some (QTensor [2] [1; 3]%Q)
    ∧ value_of (eval_value s 1%positive (one_dict {[ "x" := tensor_1x2 ]}))
      = Ok (QTensor [] [4%Q])
    ∧ q_sum_dim0 tensor_1x2 = Some (QTensor [2] [1; 3]%Q).
Proof. eexists _, _. repeat split; by vm_compute. Qed.

(** The sequenced form, at [a = z_loss.expectation(p_z, input_var=[])],
    [b = x_loss] and the environment [{"x": vector_5}]. *)
Lemma arithmetic_laws_witness :
  (∃ n, Loss_add expected_z (VLoss x_loss) = Ok n
     ∧ value_of (eval_value n 1%positive store_a)
       = value_of (eval_both t_add expected_z x_loss 1%positive store_a))
  ∧ (∃ n, Loss_sub expected_z (VLoss x_loss) = Ok n
     ∧ value_of (eval_value n 1%positive store_a)
       = value_of (eval_both t_sub expected_z x_loss 1%positive store_a))
  ∧ (∃ n, Loss_mul expected_z (VLoss x_loss) = Ok n
     ∧ value_of (eval_value n 1%positive store_a)
       = value_of (eval_both t_mul expected_z x_loss 1%positive store_a))
  ∧ (∃ n, Loss_truediv expected_z (VLoss x_loss) = Ok n
     ∧ value_of (eval_value n 1%positive store_a)
       = value_of (eval_both t_truediv expected_z x_loss 1%positive store_a))
  ∧ (∃ n, Loss_neg expected_z = Ok n
     ∧ value_of (eval_value n 1%positive store_a)
       = value_of (eval_one t_neg expected_z 1%positive store_a)).
Proof.
  apply (arithmetic_laws expected_z x_loss 1%positive store_a).
  - apply (bool_decide_unpack _). vm_compute. exact I.
  - apply (bool_decide_unpack _). vm_compute. exact I.
Defined.

(** C9, at [x - (-x)] and two stores that hold [{"x": vector_5}]. *)
Lemma eval_deterministic_witness :
  outcome (eval (LossOperator SubLoss ["x"] (VLoss x_loss)
                   (VLoss (LossSelfOperator NegLoss ["x"] (VLoss x_loss))))
             1%positive store_a)
  = outcome (eval (LossOperator SubLoss ["x"] (VLoss x_loss)
                     (VLoss (LossSelfOperator NegLoss ["x"] (VLoss x_loss))))
               7%positive store_b)
  ∧ ∀ r σ1',
      eval (LossOperator SubLoss ["x"] (VLoss x_loss)
              (VLoss (LossSelfOperator NegLoss ["x"] (VLoss x_loss))))
        1%positive store_a = Ok (r, σ1') →
      heap σ1' !!! 1%positive = heap store_a !!! 1%positive
      ∧ world σ1' = world store_a
      ∧ outcome (eval (LossOperator SubLoss ["x"] (VLoss x_loss)
                         (VLoss (LossSelfOperator NegLoss ["x"] (VLoss x_loss))))
                   1%positive σ1')
        = outcome (eval (LossOperator SubLoss ["x"] (VLoss x_loss)
                           (VLoss (LossSelfOperator NegLoss ["x"] (VLoss x_loss))))
                     1%positive store_a).
Proof.
  apply (eval_deterministic _ 1%positive store_a 7%positive store_b).
  - simpl. tauto.
  - apply (bool_decide_unpack _). vm_compute. exact I.
  - apply (bool_decide_unpack _). vm_compute. exact I.
  - vm_compute. reflexivity.
Defined.

(** C10, at [x_loss.expectation(p_z, input_var=[])] and an empty
    environment: the dictionary sampled has ["z"] and lacks ["x"]. *)
Lemma Expectation_validates_integrand_witness :
  eval expected_x 1%positive (one_dict ∅)
  = Raise (InputKeysError (dom (heap sampled_store !!! sampled_dict))).
Proof.
  apply (Expectation_validates_integrand p_z x_loss [] [] 1%positive (one_dict ∅)
           sampled_dict sampled_store).
  - apply (bool_decide_unpack _). vm_compute. exact I.
  - reflexivity.
  - exists "x". split; [simpl; set_solver|].
    apply (bool_decide_unpack _). vm_compute. exact I.
Defined.

(** C3, at [E_p[z] + x] (with the default scoping) and the environment
    [{"x": vector_5}]: the sampler's assumptions hold for the counting
    sampler and the tree is well scoped. *)
Lemma eval_validation_witness :
  (∃ keys, eval (LossOperator AddLoss ["x"] (VLoss expected_z) (VLoss x_loss))
             1%positive store_a = Raise (InputKeysError keys))
  ↔ (∃ name, name ∈ input_var (LossOperator AddLoss ["x"] (VLoss expected_z) (VLoss x_loss))
             ∧ name ∉ dom (heap store_a !!! 1%positive)).
Proof.
  apply (proj2 (proj2 (proj2
    (eval_validation (LossOperator AddLoss ["x"] (VLoss expected_z) (VLoss x_loss))
       1%positive store_a)))).
  - exact counting_sampler_keeps_keys.
  - exact counting_sampler_returns_all.
  - simpl. split; [split; [split; [done|]|]|split; [done|]].
    + intros name Hn Hv. by destruct Hv.
    + intros name Hn. by apply elem_of_nil in Hn.
    + by intros name Hn.
Defined.

(** The law for independent calls, at [x] and [-x] and the environment
    [{"x": vector_5}]. *)
Lemma arithmetic_laws_no_Expectation_witness :
  ∃ n, LossOperator_init MulLoss (VLoss x_loss)
         (VLoss (LossSelfOperator NegLoss ["x"] (VLoss x_loss))) = Ok n
     ∧ value_of (eval_value n 1%positive store_a)
       = (v1 ← value_of (eval_value x_loss 1%positive store_a);
          v2 ← value_of (eval_value (LossSelfOperator NegLoss ["x"] (VLoss x_loss))
                           1%positive store_a);
          of_option EngineError (binary_apply MulLoss v1 v2)).
Proof.
  apply (arithmetic_laws_no_Expectation MulLoss x_loss
           (LossSelfOperator NegLoss ["x"] (VLoss x_loss)) 1%positive store_a).
  - exact I.
  - exact I.
  - apply (bool_decide_unpack _). vm_compute. exact I.
  - apply (bool_decide_unpack _). vm_compute. exact I.
  - apply (bool_decide_unpack _). vm_compute. exact I.
Defined.

(** ** Small runs *)

Example py_index_runs :
  py_index ["b"; "a"; "b"] "b" = Ok 0
  ∧ py_index ["b"; "a"; "b"] "a" = Ok 1
  ∧ py_index ["b"; "a"] "c" = Raise (NotInList "c").
Proof. by repeat split. Qed.

Example sorted_runs :
  sorted_key (λ n : nat, Ok (n `mod` 3)) [5; 3; 4; 0; 1] = Ok [3; 0; 4; 1; 5].
Proof. by vm_compute. Qed.

Example sorted_set_by_index_runs :
  set_iter (list_to_set ["b"; "a"; "b"; "c"; "a"]) = ["c"; "a"; "b"]
  ∧ sorted_set_by_index ["b"; "a"; "b"; "c"; "a"] = Ok ["b"; "a"; "c"]
  ∧ first_occurrences ["b"; "a"; "b"; "c"; "a"] = ["b"; "a"; "c"].
Proof. repeat split; by vm_compute. Qed.

Example LossOperator_init_runs :
  input_var <$> LossOperator_init AddLoss (VLoss x_loss) (VLoss z_loss) = Ok ["x"; "z"]
  ∧ LossOperator_init AddLoss (VLoss x_loss) (VStr "abc")
    = Raise (OperandError (TyOther "str") (TyLoss "Parameter"))
  ∧ LossOperator_init (T:=qvalue) AddLoss (VStr "abc") (VLoss x_loss)
    = Raise (OperandError (TyOther "str") (TyLoss "Parameter"))
  ∧ LossOperator_init (T:=qvalue) AddLoss (VNum (QNum 1)) (VStr "abc")
    = Raise (OperandError (TyOther "str") (TyLoss "ValueLoss"))
  ∧ LossOperator_init (T:=qvalue) AddLoss VNone (VLoss x_loss)
    = Raise (OperandError TyNoneType (TyLoss "Parameter"))
  ∧ LossOperator_init (T:=qvalue) AddLoss (VStr "abc") VNone
    = Ok (LossOperator AddLoss [] (VStr "abc") VNone).
Proof. repeat split; by vm_compute. Qed.

(** With the iteration order of [elements], ["b"; "a"] comes back in the
    other order. *)
Example Expectation_init_runs :
  input_var <$> Expectation_init
                  {| d_input_var := ["b"; "a"]; d_var := []; d_prob_text := "p" |}
                  (ValueLoss (QNum 0)) None []
  = Ok ["a"; "b"].
Proof. by vm_compute. Qed.

Example eval_runs :
  value_of (eval_value (ValueLoss (QNum 5)) 1%positive (one_dict ∅)) = Ok (QNum 5)
  ∧ value_of (eval_value x_loss 1%positive store_a) = Ok vector_5
  ∧ value_of (eval_value x_loss 1%positive (one_dict ∅))
    = Raise (InputKeysError ∅)
  ∧ value_of (eval_value (LossOperator AddLoss [] (VStr "abc") VNone) 1%positive (one_dict ∅))
    = Raise (AttributeError (TyOther "str") "_get_eval")
  ∧ value_of (eval_value (LossOperator AddLoss [] VNone VNone) 1%positive (one_dict ∅))
    = Ok (QNum 0)
  ∧ value_of (eval_value expected_z 1%positive store_a) = Ok (QTensor [1] [0%Q]).
Proof. repeat split; by vm_compute. Qed.

(** The reflected operators put [self] first: [5 - a] builds
    [SubLoss(a, 5)] and evaluates to [a - 5]; [6 / a] builds [DivLoss(a, 6)]
    and evaluates to [a / 6]. *)
Example reflected_operators_run :
  Loss_rsub (ValueLoss (QNum 3)) (VNum (QNum 5))
  = Ok (LossOperator SubLoss [] (VLoss (ValueLoss (QNum 3))) (VLoss (ValueLoss (QNum 5))))
  ∧ (n ← Loss_rsub (ValueLoss (QNum 3)) (VNum (QNum 5));
     value_of (eval_value n 1%positive (one_dict ∅))) = Ok (QNum (-2))
  ∧ (n ← Loss_rtruediv (ValueLoss (QNum 3)) (VNum (QNum 6));
     value_of (eval_value n 1%positive (one_dict ∅))) = Ok (QNum (1 # 2)).
Proof. repeat split; by vm_compute. Qed.

(** * Further properties of the constructors *)

(** ** How [input_var] composes *)

Lemma first_occurrences_from_app seen (l m : list string) :
  first_occurrences_from seen (l ++ m)
  = first_occurrences_from seen l
    ++ first_occurrences_from (seen ∪ list_to_set l) m.
Proof.
  revert seen. induction l as [|x l IH]; intros seen; simpl.
  - f_equal. set_solver.
  - case_decide as Hx.
    + rewrite IH. do 2 f_equal. set_solver.
    + simpl. rewrite IH. do 3 f_equal. set_solver.
Qed.

Lemma first_occurrences_from_seen seen (l : list string) :
  (∀ x, x ∈ l → x ∈ seen) → first_occurrences_from seen l = [].
Proof.
  induction l as [|x l IH]; intros Hl; simpl; [done|].
  rewrite decide_True by (apply Hl; left).
  apply IH. intros y Hy. apply Hl. by right.
Qed.

Lemma first_occurrences_from_absorb seen' seen (m : list string) :
  seen' ⊆ seen →
  first_occurrences_from seen (first_occurrences_from seen' m)
  = first_occurrences_from seen m.
Proof.
  revert seen' seen. induction m as [|x m IH]; intros seen' seen Hs; simpl; [done|].
  destruct (decide (x ∈ seen')) as [Hx'|Hx'].
  - rewrite (decide_True (P := x ∈ seen)) by set_solver. by apply IH.
  - simpl. destruct (decide (x ∈ seen)) as [Hx|Hx].
    + apply IH. set_solver.
    + f_equal. apply IH. set_solver.
Qed.

Lemma list_to_set_first_occurrences (l : list string) :
  list_to_set (first_occurrences l) = (list_to_set l : gset string).
Proof.
  apply set_eq. intros x.
  by rewrite !elem_of_list_to_set, elem_of_first_occurrences.
Qed.

Lemma first_occurrences_app_l (l m : list string) :
  first_occurrences (first_occurrences l ++ m) = first_occurrences (l ++ m).
Proof.
  unfold first_occurrences. rewrite !first_occurrences_from_app.
  rewrite (first_occurrences_from_absorb ∅ ∅) by done.
  fold (first_occurrences l). by rewrite list_to_set_first_occurrences.
Qed.

Lemma first_occurrences_app_r (l m : list string) :
  first_occurrences (l ++ first_occurrences m) = first_occurrences (l ++ m).
Proof.
  unfold first_occurrences. rewrite !first_occurrences_from_app.
  f_equal. apply first_occurrences_from_absorb. set_solver.
Qed.

Lemma first_occurrences_twice (l : list string) :
  first_occurrences (l ++ l) = first_occurrences l.
Proof.
  unfold first_occurrences. rewrite first_occurrences_from_app.
  rewrite (first_occurrences_from_seen (∅ ∪ list_to_set l) l).
  - by rewrite app_nil_r.
  - intros x Hx. apply elem_of_union_r. by apply elem_of_list_to_set.
Qed.

Section Composition.
Context `{SetIter} {T : Type}.

(** X8.  [input_var] does not depend on how a sum is bracketed:
    [(a op b) op' c] and [a op (b op' c)] both have the first occurrences of
    [a.input_var + b.input_var + c.input_var]; and an operand repeated adds
    nothing: [a op a] has the first occurrences of [a.input_var]. *)
Lemma input_var_composition (c1 c2 : binary_class) (a b c : loss T) :
  (n ← LossOperator_init c1 (VLoss a) (VLoss b);
   input_var <$> LossOperator_init c2 (VLoss n) (VLoss c))
  = Ok (first_occurrences (input_var a ++ input_var b ++ input_var c))
  ∧ (n ← LossOperator_init c2 (VLoss b) (VLoss c);
     input_var <$> LossOperator_init c1 (VLoss a) (VLoss n))
    = Ok (first_occurrences (input_var a ++ input_var b ++ input_var c))
  ∧ input_var <$> LossOperator_init c1 (VLoss a) (VLoss a)
    = Ok (first_occurrences (input_var a)).
Proof.
  rewrite !LossOperator_init_losses. simpl.
  rewrite !LossOperator_init_losses. simpl.
  rewrite first_occurrences_app_l, first_occurrences_app_r, first_occurrences_twice.
  by rewrite <- app_assoc.
Qed.

End Composition.

(** * Further properties of evaluation *)

(** ** Leaves, numbers and [None] as operands *)

Section Operands.
Context {T W : Type} `{Tensor T} `{Sampler T W} `{SetIter}.

Lemma check_first_occurrences (l : list string) (d : gmap string T) :
  bool_decide (list_to_set (first_occurrences l) ⊆ dom d)
  = bool_decide (list_to_set l ⊆ dom d).
Proof. by rewrite list_to_set_first_occurrences. Qed.

(** [eval] of a binary node over a loss and a number. *)
Lemma LossOperator_number_eval_value cls (a : loss T) (k : T) x (σ : state T W) :
  value_of (eval_value
              (LossOperator cls (first_occurrences (input_var a)) (VLoss a)
                 (VLoss (ValueLoss k))) x σ)
  = value_of (eval_one (λ v, binary_apply cls v k) a x σ).
Proof.
  unfold eval_one, eval_value. rewrite !bind_run, !eval_run.
  change (input_var (LossOperator cls (first_occurrences (input_var a)) (VLoss a)
                       (VLoss (ValueLoss k))))
    with (first_occurrences (input_var a)).
  rewrite check_first_occurrences. case_bool_decide; [|done].
  rewrite get_eval_LossOperator. simpl.
  destruct (_get_eval a x σ) as [[[v1 x1] σ1]|e]; [|done]. simpl.
  unfold lift. by destruct (binary_apply cls v1 k).
Qed.

(** X9.  A number as second operand: [a op k] constructs for every loss [a] and
    number [k], has the names of [a] and evaluates to [a.eval(env) op k];
    an exception of [a.eval] or of the operation is raised. *)
Lemma scalar_operand_eval cls (a : loss T) (k : T) x (σ : state T W) :
  ∃ n, LossOperator_init cls (VLoss a) (VNum k) = Ok n
     ∧ input_var n = first_occurrences (input_var a)
     ∧ (∀ name, name ∈ input_var n ↔ name ∈ input_var a)
     ∧ value_of (eval_value n x σ)
       = value_of (eval_one (λ v, binary_apply cls v k) a x σ).
Proof.
  eexists. split; [apply LossOperator_init_number|]. split; [done|]. split.
  - intros name. simpl. apply elem_of_first_occurrences.
  - apply LossOperator_number_eval_value.
Qed.

(** X7.  The reflected operators put [self] first.  For a number [k] and a loss
    [a], [k - a] (which Python hands to [a.__rsub__(k)]) is the node
    [SubLoss(a, k)] and evaluates to [a.eval(env) - k]; [k / a] is
    [DivLoss(a, k)] and evaluates to [a.eval(env) / k]; [k + a] and [k * a]
    are [AddLoss(a, k)] and [MulLoss(a, k)]. *)
Lemma reflected_operators_eval (a : loss T) (k : T) x (σ : state T W) :
  (∃ n, Loss_rsub a (VNum k) = Ok n ∧ Loss_sub a (VNum k) = Ok n
      ∧ value_of (eval_value n x σ) = value_of (eval_one (λ v, t_sub v k) a x σ))
  ∧ (∃ n, Loss_rtruediv a (VNum k) = Ok n ∧ Loss_truediv a (VNum k) = Ok n
      ∧ value_of (eval_value n x σ) = value_of (eval_one (λ v, t_truediv v k) a x σ))
  ∧ (∃ n, Loss_radd a (VNum k) = Ok n ∧ Loss_add a (VNum k) = Ok n
      ∧ value_of (eval_value n x σ) = value_of (eval_one (λ v, t_add v k) a x σ))
  ∧ (∃ n, Loss_rmul a (VNum k) = Ok n ∧ Loss_mul a (VNum k) = Ok n
      ∧ value_of (eval_value n x σ) = value_of (eval_one (λ v, t_mul v k) a x σ)).
Proof.
  unfold Loss_rsub, Loss_sub, Loss_rtruediv, Loss_truediv, Loss_radd, Loss_add,
    Loss_rmul, Loss_mul.
  repeat split;
    (eexists; split; [apply LossOperator_init_number|];
     split; [apply LossOperator_init_number|]).
  - exact (LossOperator_number_eval_value SubLoss a k x σ).
  - exact (LossOperator_number_eval_value DivLoss a k x σ).
  - exact (LossOperator_number_eval_value AddLoss a k x σ).
  - exact (LossOperator_number_eval_value MulLoss a k x σ).
Qed.

(** X15.  The leaves.  [ValueLoss(v).eval(env)] returns [v] and the dictionary
    given, for every dictionary, and writes nothing.  [Parameter(name)
    .eval(env)] returns [env[name]] and the dictionary given when [name] is a
    key; when it is not, the entry check raises the validation error with the
    keys of [env], so that the [KeyError] of [x_dict[name]] is never seen. *)
Lemma leaf_eval (v : T) (name : string) x (σ : state T W) :
  eval (ValueLoss v) x σ = Ok ((v, x), σ)
  ∧ eval (Parameter' name) x σ
    = match (heap σ !!! x) !! name with
      | Some w => Ok ((w, x), σ)
      | None => Raise (InputKeysError (dom (heap σ !!! x)))
      end.
Proof.
  split.
  - rewrite eval_run. simpl. rewrite bool_decide_eq_true_2; [done|set_solver].
  - rewrite eval_run. simpl. rewrite bind_run. unfold read, tolist.
    destruct ((heap σ !!! x) !! name) as [w|] eqn:E.
    + rewrite bool_decide_eq_true_2; [done|].
      intros k Hk. assert (k = name) as -> by set_solver.
      apply elem_of_dom. by eexists.
    + rewrite bool_decide_eq_false_2; [done|].
      intros Hs. apply not_elem_of_dom in E. apply E, Hs. set_solver.
Qed.

End Operands.

Section AbsentOperand.
Context {S T W : Type} `{Tensor T} `{Sampler T W} `{Sympy S T} `{SetIter}.

(** X10.  [None] as second operand: [a op None] constructs for every loss [a],
    with the names of [a]; it evaluates to [a.eval(env) op 0]; and it has no
    symbol: [_symbol], and with it [loss_text], [str] and [repr], raise (the
    [AttributeError] of [None._symbol], unless [a]'s own symbol raises
    first). *)
Lemma absent_operand cls (a : loss T) x (σ : state T W) :
  ∃ n, LossOperator_init cls (VLoss a) VNone = Ok n
     ∧ input_var n = first_occurrences (input_var a)
     ∧ value_of (eval_value n x σ)
       = value_of (eval_one (λ v, binary_apply cls v t_zero) a x σ)
     ∧ (_symbol (S:=S) n
        = match _symbol (S:=S) a with
          | Ok _ => Raise (AttributeError TyNoneType "_symbol")
          | Raise e => Raise e
          end)
     ∧ (∀ t, loss_text (S:=S) n ≠ Ok t).
Proof.
  exists (LossOperator cls (first_occurrences (input_var a)) (VLoss a) VNone).
  assert (Hs : _symbol (S:=S) (LossOperator cls (first_occurrences (input_var a))
                                 (VLoss a) VNone)
               = match _symbol (S:=S) a with
                 | Ok _ => Raise (AttributeError TyNoneType "_symbol")
                 | Raise e => Raise e
                 end).
  { simpl. by destruct (_symbol a). }
  split; [|split; [done|split; [|split; [exact Hs|]]]].
  - unfold LossOperator_init. simpl.
    by rewrite sorted_set_by_index_first_occurrences.
  - unfold eval_one, eval_value. rewrite !bind_run, !eval_run.
    change (input_var (LossOperator cls (first_occurrences (input_var a)) (VLoss a) VNone))
      with (first_occurrences (input_var a)).
    rewrite check_first_occurrences. case_bool_decide; [|done].
    rewrite get_eval_LossOperator. simpl.
    destruct (_get_eval a x σ) as [[[v1 x1] σ1]|e]; [|done]. simpl.
    unfold lift. by destruct (binary_apply cls v1 t_zero).
  - intros t. unfold loss_text. rewrite Hs. by destruct (_symbol a).
Qed.

End AbsentOperand.

(** ** What the constructors keep *)

Section Invariants.
Context `{SetIter} {T : Type}.

(** X11.  From operands that are well scoped and hold losses in their slots,
    the overloads and constructors, given a loss, a number or [None] as other
    operand and [input_var] left to them, build a tree that is well scoped
    and holds losses in its slots. *)
Lemma overloads_keep_invariants (a b : loss T) :
  well_scoped a → holds_losses a → well_scoped b → holds_losses b →
  (∀ cls other, other = VLoss b ∨ (∃ k, other = VNum k) ∨ other = VNone →
     ∃ n, LossOperator_init cls (VLoss a) other = Ok n
        ∧ well_scoped n ∧ holds_losses n)
  ∧ (∀ cls, ∃ n, LossSelfOperator_init cls (VLoss a) = Ok n
        ∧ well_scoped n ∧ holds_losses n)
  ∧ (well_scoped (SetLoss_init a) ∧ holds_losses (SetLoss_init a))
  ∧ (∀ p sh, ∃ n, Expectation_init p a None sh = Ok n
        ∧ well_scoped n ∧ holds_losses n).
Proof.
  intros Ha Hsa Hb Hsb. split; [|split; [|split]].
  - intros cls other [->|[[k ->]| ->]].
    + eexists. split; [apply LossOperator_init_losses|]. simpl.
      repeat split; try done; intros x Hx;
        apply elem_of_first_occurrences, elem_of_app; auto.
    + eexists. split; [apply LossOperator_init_number|]. simpl.
      repeat split; try done; intros x Hx; [|by apply elem_of_nil in Hx].
      by apply elem_of_first_occurrences.
    + eexists. split.
      * unfold LossOperator_init. simpl.
        by rewrite sorted_set_by_index_first_occurrences.
      * simpl. repeat split; try done. intros x Hx.
        by apply elem_of_first_occurrences.
  - intros cls. eexists. split; [apply LossSelfOperator_init_loss|]. by simpl.
  - by simpl.
  - intros p sh. eexists. split; [apply Expectation_init_default|]. simpl.
    repeat split; try done. intros name Hn Hv. apply elem_of_set_iter. set_solver.
Qed.

(** X18.  No constructor that computes [input_var] leaves a duplicate in it,
    whatever the operands: a binary node, an [Expectation] with [input_var]
    omitted, a [Parameter], a [ValueLoss]; a unary node and a [SetLoss] copy
    the list of their operand, duplicates included if it has any. *)
Lemma constructors_input_var_NoDup :
  (∀ cls (v1 v2 : pyval T) n, LossOperator_init cls v1 v2 = Ok n → NoDup (input_var n))
  ∧ (∀ p (f : loss T) sh n, Expectation_init p f None sh = Ok n → NoDup (input_var n))
  ∧ (∀ (v : pyval T) n, Parameter_init v = Ok n → NoDup (input_var n))
  ∧ (∀ k : T, NoDup (input_var (ValueLoss_init k)))
  ∧ (∀ cls (a : loss T) n, LossSelfOperator_init cls (VLoss a) = Ok n →
       input_var n = input_var a)
  ∧ (∀ a : loss T, input_var (SetLoss_init a) = input_var a).
Proof.
  split; [|split; [|split; [|split; [|split]]]].
  - intros cls v1 v2 n. unfold LossOperator_init.
    destruct v1, v2; simpl; try done;
      rewrite sorted_set_by_index_first_occurrences; simpl;
      intros [= <-]; simpl; apply NoDup_first_occurrences.
  - intros p f sh n. rewrite Expectation_init_default. intros [= <-]. simpl.
    apply set_iter_NoDup.
  - intros v n. destruct v; try done. intros [= <-]. simpl. unfold tolist.
    apply NoDup_singleton.
  - intros k. simpl. apply NoDup_nil_2.
  - intros cls a n. by intros [= <-].
  - done.
Qed.

(** X17.  When [LossOperator.__init__] returns: exactly when the second operand
    is a loss, a number or [None], and the first operand is a loss or a
    number or the second operand is [None]; otherwise it raises the operand
    error, which names the type of the offending operand first (for the
    first operand when both offend). *)
Lemma LossOperator_init_returns_iff (cls : binary_class) (v1 v2 : pyval T) :
  let accepted (v : pyval T) :=
    match v with VLoss _ | VNum _ => True | _ => False end in
  ((∃ n, LossOperator_init cls v1 v2 = Ok n)
   ↔ (accepted v1 ∧ accepted v2) ∨ v2 = VNone)
  ∧ (¬ accepted v1 → v2 ≠ VNone →
     LossOperator_init cls v1 v2 = Raise (OperandError (type_of v1) (type_of v2)))
  ∧ (accepted v1 → ¬ accepted v2 → v2 ≠ VNone →
     ∃ t1, LossOperator_init cls v1 v2 = Raise (OperandError (type_of v2) t1)
         ∧ match v1 with VNum _ => t1 = TyLoss "ValueLoss" | _ => t1 = type_of v1 end).
Proof.
  cbv zeta. split; [|split].
  - split.
    + intros [n Hn]. destruct v1, v2; simpl in *; try done; tauto.
    + intros [[H1 H2]| ->].
      * destruct v1, v2; try done; unfold LossOperator_init; simpl;
          rewrite sorted_set_by_index_first_occurrences; by eexists.
      * destruct v1; unfold LossOperator_init; simpl;
          rewrite sorted_set_by_index_first_occurrences; by eexists.
  - intros H1 H2. destruct v1, v2; try done; by destruct H1.
  - intros H1 H2 H3. destruct v1, v2; try done; try (by destruct H2);
      by eexists.
Qed.

End Invariants.

(** ** Which exceptions evaluation raises, and which keys it returns *)

Section Errors.
Context {T W : Type} `{Tensor T} `{Sampler T W}.

Lemma updated_receives_keys (σ : state T W) x1 x2 :
  dom (heap σ !!! x2) ⊆ dom (heap (updated σ x1 x2) !!! x1).
Proof.
  unfold updated. simpl. rewrite lookup_total_insert_eq, dom_union. set_solver.
Qed.

Lemma eval_run_keeps_keys `{!SamplerKeepsKeys T W} (l : loss T) x (σ : state T W)
    r σ' y :
  eval l x σ = Ok (r, σ') → dom (heap σ !!! y) ⊆ dom (heap σ' !!! y).
Proof.
  rewrite eval_run. case_bool_decide; [|done].
  intros Hr. by apply (proj1 get_eval_keeps_keys_mutual l x σ r σ').
Qed.

(** In a well-scoped tree that holds losses in its slots, once the names of
    the root are present, [_get_eval] raises only what the engine or the
    sampler raise. *)
Lemma get_eval_errors_mutual `{!SamplerKeepsKeys T W} `{!SamplerReturnsAll T W} :
  (∀ l : loss T, well_scoped l → holds_losses l → ∀ x (σ : state T W) e,
     list_to_set (input_var l) ⊆ dom (heap σ !!! x) →
     _get_eval l x σ = Raise e → engine_or_sample_error e)
  ∧ (∀ v : pyval T, ∀ iv, slot_well_scoped iv v → ∀ x (σ : state T W) e,
     list_to_set iv ⊆ dom (heap σ !!! x) →
     (slot_holds_loss v → call_get_eval v x σ = Raise e → engine_or_sample_error e)
     ∧ (operand_holds_loss v → operand_get_eval v x σ = Raise e
        → engine_or_sample_error e)).
Proof.
  apply loss_pyval_mutind.
  - intros v _ _ x σ e _. done.
  - intros name _ _ x σ e Hiv. simpl. rewrite bind_run. unfold read.
    destruct ((heap σ !!! x) !! name) eqn:E; [done|].
    apply not_elem_of_dom in E. destruct E. apply Hiv. simpl. unfold tolist.
    set_solver.
  - intros cls iv s1 IH1 s2 IH2 [Hw1 Hw2] [Hs1 Hs2] x σ e Hiv.
    rewrite get_eval_LossOperator.
    assert (Ho1 : operand_holds_loss s1) by (by destruct s1).
    destruct (operand_get_eval s1 x σ) as [[[v1 x1] σ1]|e1] eqn:E1.
    2: { intros [= Ee]; subst.
         by eapply (proj2 (IH1 iv Hw1 x σ _ Hiv)). }
    assert (Hiv1 : list_to_set iv ⊆ dom (heap σ1 !!! x)).
    { etrans; [exact Hiv|].
      eapply (proj2 (proj2 get_eval_keeps_keys_mutual s1 x σ (v1, x1) σ1)), E1. }
    destruct (operand_get_eval s2 x σ1) as [[[v2 x2] σ2]|e2] eqn:E2.
    2: { intros [= Ee]; subst.
         by eapply (proj2 (IH2 iv Hw2 x σ1 _ Hiv1)). }
    destruct (binary_apply cls v1 v2); [done|]. intros [= <-]. by left.
  - intros cls iv s1 IH1 Hw1 Hs1 x σ e Hiv.
    rewrite get_eval_LossSelfOperator.
    destruct (call_get_eval s1 x σ) as [[[v1 x1] σ1]|e1] eqn:E1.
    2: { intros [= Ee]; subst.
         by eapply (proj1 (IH1 iv Hw1 x σ _ Hiv)). }
    destruct (unary_apply cls v1); [done|]. intros [= <-]. by left.
  - intros iv inner IH [Hw Hsub] Hs x σ e Hiv. apply IH; [done|done|].
    intros name Hn. rewrite elem_of_list_to_set in Hn.
    apply Hiv. rewrite elem_of_list_to_set. simpl. by apply Hsub.
  - intros p f IH iv sh [Hw Hcov] Hs x σ e Hiv.
    rewrite get_eval_Expectation.
    destruct (sample p x sh σ) as [[sd σ1]|] eqn:Es.
    2: { intros [= <-]. by right. }
    assert (Hf : list_to_set (input_var f) ⊆ dom (heap σ1 !!! sd)).
    { intros name Hn. rewrite elem_of_list_to_set in Hn.
      apply (sample_returns_all _ _ _ _ _ _ Es).
      destruct (decide (name ∈ d_var p)) as [Hv|Hv].
      - apply elem_of_union_r. by rewrite elem_of_list_to_set.
      - apply elem_of_union_l, Hiv. rewrite elem_of_list_to_set. simpl.
        by apply Hcov. }
    rewrite eval_superset by done.
    destruct (_get_eval f sd σ1) as [[[v lsd] σ2]|e2] eqn:Ef.
    2: { intros [= Ee]; subst. by eapply IH. }
    destruct (t_view_mean (numel sh) v); [done|]. intros [= <-]. by left.
  - intros l IH iv [Hw Hsub] x σ e Hiv.
    assert (Hl : list_to_set (input_var l) ⊆ dom (heap σ !!! x)).
    { intros name Hn. rewrite elem_of_list_to_set in Hn.
      apply Hiv. rewrite elem_of_list_to_set. by apply Hsub. }
    split; simpl; intros Hs He; by eapply IH.
  - intros n iv _ x σ e _. by split.
  - intros iv _ x σ e _. split; [done|]. by intros _.
  - intros s0 iv _ x σ e _. by split.
  - intros c iv _ x σ e _. by split.
Qed.

(** X12.  The exceptions of [eval].  For a tree that is well scoped and holds
    losses in its slots (as the overloads build it), with a sampler that
    returns the entries given and those of [p.var] and removes no key: a
    call of [eval] that raises, raises the validation error of the entry
    check, for a name of the root's [input_var] missing from the
    environment, or what [p.sample] raised, or what an operation on a value
    raised ([+ - * /], unary [-], [abs()], [mean()], [sum()],
    [view().mean()]; on a number the last four raise Python's
    [AttributeError], a number having no such method).  It never raises the
    [KeyError] of [x_dict[name]], nor the [AttributeError] of a slot that
    has no [_get_eval], nor the validation error of a nested check. *)
Lemma eval_raises_only (l : loss T) x (σ : state T W) e :
  SamplerKeepsKeys T W → SamplerReturnsAll T W →
  well_scoped l → holds_losses l →
  eval l x σ = Raise e →
  (e = InputKeysError (dom (heap σ !!! x))
   ∧ ∃ name, name ∈ input_var l ∧ name ∉ dom (heap σ !!! x))
  ∨ e = EngineError ∨ e = SampleError.
Proof.
  intros HK HR Hw Hs. rewrite eval_run. case_bool_decide as Hd.
  - intros He. right.
    by apply (proj1 get_eval_errors_mutual l Hw Hs x σ e Hd).
  - intros [= <-]. left. split; [done|]. by apply missing_name_iff.
Qed.

(** A tree that holds losses in its slots and has no [Expectation] returns
    the dictionary object it was given. *)
Lemma get_eval_returns_given_mutual :
  (∀ l : loss T, no_Expectation l → holds_losses l → ∀ x (σ : state T W) v r σ',
     _get_eval l x σ = Ok ((v, r), σ') → r = x)
  ∧ (∀ s : pyval T, slot_no_Expectation s → slot_holds_loss s →
     ∀ x (σ : state T W) v r σ',
     (call_get_eval s x σ = Ok ((v, r), σ') → r = x)
     ∧ (operand_get_eval s x σ = Ok ((v, r), σ') → r = x)).
Proof.
  apply loss_pyval_mutind.
  - intros v0 _ _ x σ v r σ'. by intros [= _ <- _].
  - intros name _ _ x σ v r σ'. simpl. rewrite bind_run. unfold read.
    destruct ((heap σ !!! x) !! name); [|done]. by intros [= _ <- _].
  - intros cls iv s1 IH1 s2 IH2 [Hn1 Hn2] [Hs1 Hs2] x σ v r σ'.
    rewrite get_eval_LossOperator.
    destruct (operand_get_eval s1 x σ) as [[[v1 x1] σ1]|e1] eqn:E1; [|done].
    destruct (operand_get_eval s2 x σ1) as [[[v2 x2] σ2]|e2] eqn:E2; [|done].
    destruct (binary_apply cls v1 v2); [|done]. intros [= _ <- _].
    by eapply (proj2 (IH1 Hn1 Hs1 x σ v1 x1 σ1)).
  - intros cls iv s1 IH1 Hn1 Hs1 x σ v r σ'.
    rewrite get_eval_LossSelfOperator.
    destruct (call_get_eval s1 x σ) as [[[v1 x1] σ1]|e1] eqn:E1; [|done].
    destruct (unary_apply cls v1); [|done]. intros [= _ <- _].
    by eapply (proj1 (IH1 Hn1 Hs1 x σ v1 x1 σ1)).
  - intros iv inner IH Hn Hs x σ v r σ'. by apply IH.
  - intros p f _ iv sh [].
  - intros l IH Hn Hs x σ v r σ'. split; by apply IH.
  - intros n _ [].
  - intros _ [].
  - intros s0 _ [].
  - intros c _ [].
Qed.

(** A tree that holds losses in its slots returns a dictionary with every
    key of the one it was given. *)
Lemma get_eval_returns_keys_mutual `{!SamplerKeepsKeys T W} `{!SamplerReturnsAll T W} :
  (∀ l : loss T, holds_losses l → ∀ x (σ : state T W) v r σ',
     _get_eval l x σ = Ok ((v, r), σ') → dom (heap σ !!! x) ⊆ dom (heap σ' !!! r))
  ∧ (∀ s : pyval T, slot_holds_loss s → ∀ x (σ : state T W) v r σ',
     (call_get_eval s x σ = Ok ((v, r), σ') → dom (heap σ !!! x) ⊆ dom (heap σ' !!! r))
     ∧ (operand_get_eval s x σ = Ok ((v, r), σ')
        → dom (heap σ !!! x) ⊆ dom (heap σ' !!! r))).
Proof.
  apply loss_pyval_mutind.
  - intros v0 _ x σ v r σ'. by intros [= _ <- <-].
  - intros name _ x σ v r σ'. simpl. rewrite bind_run. unfold read.
    destruct ((heap σ !!! x) !! name); [|done]. by intros [= _ <- <-].
  - intros cls iv s1 IH1 s2 _ [Hs1 _] x σ v r σ'.
    rewrite get_eval_LossOperator.
    destruct (operand_get_eval s1 x σ) as [[[v1 x1] σ1]|e1] eqn:E1; [|done].
    destruct (operand_get_eval s2 x σ1) as [[[v2 x2] σ2]|e2] eqn:E2; [|done].
    destruct (binary_apply cls v1 v2); [|done]. intros [= _ <- <-].
    etrans; [by eapply (proj2 (IH1 Hs1 x σ v1 x1 σ1))|].
    etrans; [eapply (proj2 (proj2 get_eval_keeps_keys_mutual s2 x σ1 (v2, x2) σ2)), E2|].
    apply updated_keeps_keys.
  - intros cls iv s1 IH1 Hs1 x σ v r σ'.
    rewrite get_eval_LossSelfOperator.
    destruct (call_get_eval s1 x σ) as [[[v1 x1] σ1]|e1] eqn:E1; [|done].
    destruct (unary_apply cls v1); [|done]. intros [= _ <- <-].
    by eapply (proj1 (IH1 Hs1 x σ v1 x1 σ1)).
  - intros iv inner IH Hs x σ v r σ'. by apply IH.
  - intros p f _ iv sh _ x σ v r σ'.
    rewrite get_eval_Expectation.
    destruct (sample p x sh σ) as [[sd σ1]|] eqn:Es; [|done].
    destruct (eval f sd σ1) as [[[v1 lsd] σ2]|e] eqn:Ef; [|done].
    destruct (t_view_mean (numel sh) v1); [|done]. intros [= _ <- <-].
    etrans; [|apply updated_keeps_keys].
    etrans; [|by eapply (eval_run_keeps_keys f sd σ1)].
    etrans; [|eapply sample_returns_all, Es]. set_solver.
  - intros l IH Hs x σ v r σ'. split; by apply IH.
  - intros n [].
  - intros [].
  - intros s0 [].
  - intros c [].
Qed.

(** X14.  With [return_dict=True]: for a tree that holds losses in its slots,
    the dictionary returned has every key of the dictionary given; and when
    the root is an [Expectation], the names of [p.var] as well (the sampler
    returning the entries given and those of [p.var] and removing no
    key). *)
Lemma eval_returns_keys (l : loss T) x (σ : state T W) v r σ' :
  SamplerKeepsKeys T W → SamplerReturnsAll T W →
  holds_losses l →
  eval l x σ = Ok ((v, r), σ') →
  dom (heap σ !!! x) ⊆ dom (heap σ' !!! r)
  ∧ match l with
    | Expectation p _ _ _ => list_to_set (d_var p) ⊆ dom (heap σ' !!! r)
    | _ => True
    end.
Proof.
  intros HK HR Hs. rewrite eval_run. case_bool_decide; [|done]. intros He.
  split; [by eapply (proj1 get_eval_returns_keys_mutual l Hs x σ v r σ')|].
  destruct l as [| | | | |p f iv sh]; try done.
  rewrite get_eval_Expectation in He.
  destruct (sample p x sh σ) as [[sd σ1]|] eqn:Es; [|done].
  destruct (eval f sd σ1) as [[[v1 lsd] σ2]|e] eqn:Ef; [|done].
  destruct (t_view_mean (numel sh) v1); [|done]. injection He as _ <- <-.
  etrans; [|apply updated_keeps_keys].
  etrans; [|by eapply (eval_run_keeps_keys f sd σ1)].
  etrans; [|eapply sample_returns_all, Es]. set_solver.
Qed.

(** X6.  Evaluation writes into the caller's dictionary.  Let [a] have no
    [Expectation] (and hold losses in its slots).  Then
    [(a op E_p[f]).eval(env, return_dict=True)] returns the very dictionary
    object [env], and after the call [env] has the names of [p.var] among
    its keys: [x1.update(x2)] has written the sampled entries into it. *)
Lemma eval_writes_to_given_dictionary cls iv (a : loss T) p f ive sh x
    (σ : state T W) v r σ' :
  SamplerKeepsKeys T W → SamplerReturnsAll T W →
  no_Expectation a → holds_losses a →
  eval (LossOperator cls iv (VLoss a) (VLoss (Expectation p f ive sh))) x σ
    = Ok ((v, r), σ') →
  r = x ∧ list_to_set (d_var p) ⊆ dom (heap σ' !!! x).
Proof.
  intros HK HR Hn Hs. rewrite eval_run. case_bool_decide; [|done].
  rewrite get_eval_LossOperator.
  change (operand_get_eval (VLoss a) x σ) with (_get_eval a x σ).
  destruct (_get_eval a x σ) as [[[v1 x1] σ1]|e1] eqn:E1; [|done].
  change (operand_get_eval (VLoss (Expectation p f ive sh)) x σ1)
    with (_get_eval (Expectation p f ive sh) x σ1).
  rewrite get_eval_Expectation.
  destruct (sample p x sh σ1) as [[sd σs]|] eqn:Es; [|done].
  destruct (eval f sd σs) as [[[v2 lsd] σ2]|e] eqn:Ef; [|done].
  destruct (t_view_mean (numel sh) v2); [|done].
  destruct (binary_apply cls v1 _); [|done]. intros [= _ <- <-].
  assert (x1 = x) as -> by (by eapply (proj1 get_eval_returns_given_mutual a Hn Hs x σ v1 x1 σ1)).
  split; [done|].
  assert (Hsd : list_to_set (d_var p) ⊆ dom (heap (updated σ2 sd lsd) !!! sd)).
  { etrans; [|apply updated_keeps_keys].
    etrans; [|by eapply (eval_run_keeps_keys f sd σs)].
    etrans; [|eapply sample_returns_all, Es]. set_solver. }
  etrans; [exact Hsd|]. apply updated_receives_keys.
Qed.

End Errors.

(** ** [train] and [test] *)

Section MethodFacts.
Context {T R : Type}.

Lemma Loss_getattr_under_SetLoss (m : method) (l : loss T) :
  Loss_getattr m l
  = match under_SetLoss l with
    | LossSelfOperator _ _ _ =>
        match l with
        | SetLoss _ _ => inr NoneObject
        | _ => inr (BoundMethod l)
        end
    | c => inl (NoAttribute (TyLoss (class_name c)) (method_name m))
    end.
Proof.
  induction l as [| | | |iv inner IH|]; try done.
  simpl. rewrite IH. by destruct (under_SetLoss inner), inner.
Qed.

(** X16.  Which exception [l.train(env)] and [l.test(env)] raise, for [l] a
    unary node or any other node of this module.  The call goes down the
    chain of unary nodes to the first value that is not one.  If that value
    is not a [SetLoss], the call raises the [AttributeError] of that value
    (it has no such method).  If it is a [SetLoss], [__getattr__] looks the
    name up on the loss inside: under the chain of [SetLoss] nodes, a unary
    node has the method, which is found and dropped, [None] is returned and
    calling it raises the [TypeError]; any other node raises its own
    [AttributeError]. *)
Lemma train_test_exception (m : method) (l : loss T) :
  Loss_call (R:=R) m l
  = match chain_end l with
    | VLoss (SetLoss _ inner) =>
        match under_SetLoss inner with
        | LossSelfOperator _ _ _ => inl (NotCallable TyNoneType)
        | c => inl (NoAttribute (TyLoss (class_name c)) (method_name m))
        end
    | v => inl (NoAttribute (type_of v) (method_name m))
    end.
Proof.
  pose (F := λ v : pyval T,
    match v return call_exn + R with
    | VLoss (SetLoss _ inner) =>
        match under_SetLoss inner with
        | LossSelfOperator _ _ _ => inl (NotCallable TyNoneType)
        | c => inl (NoAttribute (TyLoss (class_name c)) (method_name m))
        end
    | v => inl (NoAttribute (type_of v) (method_name m))
    end).
  assert (Hall : (∀ l : loss T, Loss_call (R:=R) m l = F (chain_end l))
                 ∧ (∀ v : pyval T, slot_call (R:=R) m v = F (slot_chain_end v))).
  { apply loss_pyval_mutind; try done.
    intros iv inner _. simpl. rewrite Loss_getattr_under_SetLoss.
    by destruct (under_SetLoss inner), inner. }
  rewrite (proj1 Hall l). unfold F.
  by destruct (chain_end l) as [[]| | | |].
Qed.

End MethodFacts.

(** ** Which exceptions the symbol raises *)

Section SymbolErrors.
Context {S T : Type} `{Sympy S T}.

Lemma symbol_raises_mutual :
  (∀ l : loss T, holds_losses l → ∀ e, _symbol (S:=S) l = Raise e →
     e = EngineError ∨ e = AttributeError TyNoneType "_symbol")
  ∧ (∀ v : pyval T,
     (slot_holds_loss v → ∀ e,
        (slot_symbol (S:=S) v = Raise e →
           e = EngineError ∨ e = AttributeError TyNoneType "_symbol")
        ∧ (slot_loss_text (S:=S) v = Raise e →
           e = EngineError ∨ e = AttributeError TyNoneType "_symbol"))
     ∧ (operand_holds_loss v → ∀ e, slot_symbol (S:=S) v = Raise e →
           e = EngineError ∨ e = AttributeError TyNoneType "_symbol")).
Proof.
  apply loss_pyval_mutind.
  - done.
  - done.
  - intros cls iv s1 IH1 s2 IH2 [Hs1 Hs2] e.
    change (_symbol (LossOperator cls iv s1 s2))
      with (a ← slot_symbol (S:=S) s1; b ← slot_symbol (S:=S) s2;
            of_option EngineError (binary_symbol cls a b)).
    destruct (slot_symbol s1) as [a|e1] eqn:E1.
    2: { intros [= <-]. by apply (proj1 (proj1 IH1 Hs1 e1)). }
    destruct (slot_symbol s2) as [b|e2] eqn:E2.
    2: { intros [= <-]. by apply (proj2 IH2 Hs2 e2). }
    simpl. destruct (binary_symbol cls a b); [done|]. intros [= <-]. by left.
  - intros cls iv s1 IH1 Hs1 e. destruct cls; simpl.
    + destruct (slot_symbol s1) as [a|e1] eqn:E1.
      2: { intros [= <-]. by apply (proj1 (proj1 IH1 Hs1 e1)). }
      simpl. destruct (s_neg a); [done|]. intros [= <-]. by left.
    + destruct (slot_loss_text s1) as [a|e1] eqn:E1; [done|].
      intros [= <-]. by apply (proj2 (proj1 IH1 Hs1 e1)).
    + destruct (slot_loss_text s1) as [a|e1] eqn:E1; [done|].
      intros [= <-]. by apply (proj2 (proj1 IH1 Hs1 e1)).
    + destruct (slot_loss_text s1) as [a|e1] eqn:E1; [done|].
      intros [= <-]. by apply (proj2 (proj1 IH1 Hs1 e1)).
  - intros iv inner IH Hs e. by apply IH.
  - intros p f IH iv sh Hs e. simpl.
    destruct (_symbol f) as [a|e1] eqn:E1; [done|].
    intros [= <-]. by apply IH.
  - intros l IH. split.
    + intros Hs e. split; simpl.
      * by apply IH.
      * destruct (_symbol l) as [a|e1] eqn:E1; [done|].
        intros [= <-]. by apply IH.
    + intros Hs e. simpl. by apply IH.
  - intros n. by split.
  - split; [done|]. intros _ e. intros [= <-]. by right.
  - intros s0. by split.
  - intros c. by split.
Qed.

(** X19.  The text of a loss.  For a tree that holds losses in its slots (as
    the overloads build it), [loss_text] (and [str], [repr]) raise only what
    the typesetting library raises, or the [AttributeError] of
    [None._symbol], which comes from a [None] that is the second operand of
    a binary node. *)
Lemma loss_text_raises_only (l : loss T) (e : exn) :
  holds_losses l → loss_text (S:=S) l = Raise e →
  e = EngineError ∨ e = AttributeError TyNoneType "_symbol".
Proof.
  intros Hs. unfold loss_text.
  destruct (_symbol l) as [a|e1] eqn:E1; [done|]. intros [= <-].
  by apply (proj1 symbol_raises_mutual l Hs).
Qed.

End SymbolErrors.

(** ** The further statements at concrete inputs *)

(** X11, at [a = x_loss] and [b = z_loss]. *)
Lemma overloads_keep_invariants_witness :
  (∀ cls other, other = VLoss z_loss ∨ (∃ k, other = VNum k) ∨ other = VNone →
     ∃ n, LossOperator_init cls (VLoss x_loss) other = Ok n
        ∧ well_scoped n ∧ holds_losses n)
  ∧ (∀ cls, ∃ n, LossSelfOperator_init cls (VLoss x_loss) = Ok n
        ∧ well_scoped n ∧ holds_losses n)
  ∧ (well_scoped (SetLoss_init x_loss) ∧ holds_losses (SetLoss_init x_loss))
  ∧ (∀ p sh, ∃ n, Expectation_init p x_loss None sh = Ok n
        ∧ well_scoped n ∧ holds_losses n).
Proof.
  apply (overloads_keep_invariants x_loss z_loss); exact I.
Defined.

(** X12, at [AbsLoss(-3)] and the empty environment: [abs()] on the number
    raises. *)
Lemma eval_raises_only_witness :
  (EngineError = InputKeysError (dom (heap (one_dict ∅) !!! 1%positive))
   ∧ ∃ name, name ∈ input_var abs_of_number
             ∧ name ∉ dom (heap (one_dict ∅) !!! 1%positive))
  ∨ EngineError = EngineError ∨ EngineError = SampleError.
Proof.
  apply (eval_raises_only abs_of_number 1%positive (one_dict ∅) EngineError).
  - exact counting_sampler_keeps_keys.
  - exact counting_sampler_returns_all.
  - simpl. split; [done|]. intros name Hn. by apply elem_of_nil in Hn.
  - exact I.
  - vm_compute. reflexivity.
Defined.

(** X13, at [E_p[z]] and the environment [{"x": vector_5}]. *)
Lemma eval_keeps_keys_witness :
  dom (heap store_a !!! 1%positive)
  ⊆ dom (heap (returned (eval expected_z 1%positive store_a)).2 !!! 1%positive).
Proof.
  apply (eval_keeps_keys expected_z 1%positive store_a
           (returned (eval expected_z 1%positive store_a)).1
           (returned (eval expected_z 1%positive store_a)).2 1%positive).
  vm_compute. reflexivity.
Defined.

(** X14, at [E_p[z]] and the environment [{"x": vector_5}]: the dictionary
    returned has ["x"] and ["z"]. *)
Lemma eval_returns_keys_witness :
  dom (heap store_a !!! 1%positive)
  ⊆ dom (heap (returned (eval expected_z 1%positive store_a)).2
         !!! (returned (eval expected_z 1%positive store_a)).1.2)
  ∧ list_to_set (d_var p_z)
    ⊆ dom (heap (returned (eval expected_z 1%positive store_a)).2
           !!! (returned (eval expected_z 1%positive store_a)).1.2).
Proof.
  apply (eval_returns_keys expected_z 1%positive store_a
           (returned (eval expected_z 1%positive store_a)).1.1
           (returned (eval expected_z 1%positive store_a)).1.2
           (returned (eval expected_z 1%positive store_a)).2).
  - exact counting_sampler_keeps_keys.
  - exact counting_sampler_returns_all.
  - exact I.
  - vm_compute. reflexivity.
Defined.

(** X6, at [w + E_p[z]] and the environment [{"w": 10, "z": 100}]. *)
Lemma eval_writes_to_given_dictionary_witness :
  (returned (eval w_plus_expected_z 1%positive store_wz)).1.2 = 1%positive
  ∧ list_to_set (d_var p_z)
    ⊆ dom (heap (returned (eval w_plus_expected_z 1%positive store_wz)).2 !!! 1%positive).
Proof.
  apply (eval_writes_to_given_dictionary AddLoss ["w"] (Parameter' "w") p_z z_loss [] []
           1%positive store_wz
           (returned (eval w_plus_expected_z 1%positive store_wz)).1.1
           (returned (eval w_plus_expected_z 1%positive store_wz)).1.2
           (returned (eval w_plus_expected_z 1%positive store_wz)).2).
  - exact counting_sampler_keeps_keys.
  - exact counting_sampler_returns_all.
  - exact I.
  - exact I.
  - vm_compute. reflexivity.
Defined.

(** X19, at [x + None]. *)
Lemma loss_text_raises_only_witness :
  AttributeError TyNoneType "_symbol" = EngineError
  ∨ AttributeError TyNoneType "_symbol" = AttributeError TyNoneType "_symbol".
Proof.
  apply (loss_text_raises_only (S:=string) x_plus_None).
  - simpl. tauto.
  - reflexivity.
Defined.


